(** * PDF outline extraction: a shallow embedding of [main.py]

    The development follows the layout of the program: a model of the
    Python run time the program leans on (strings, exceptions, the [re]
    module, the Unicode database), the page representation handed over by
    the decoding backend, then one module per class of [main.py], the
    batch driver, and finally the properties of the program. *)

From Stdlib Require Import ZArith QArith Qround String Ascii DecimalString Lia Lqa.
From stdpp Require Import base option list sorting gmap.

Local Open Scope Z_scope.

(** ** Python run time *)

Module Py.

(** A Python [str] is a sequence of Unicode code points. *)
Definition char := N.
Definition str := list char.

(** String literals of the program (all of them Basic Latin). *)
Definition lit (s : string) : str := map N_of_ascii (list_ascii_of_string s).

(** The exceptions the program can meet. *)
Inductive exn :=
| IndexError
| ValueError
| FileDataError
| MemoryError
| AttributeError
| OSError.

Inductive result (A : Type) :=
| Ok (a : A)
| Raise (e : exn).
Arguments Ok {A} a.
Arguments Raise {A} e.

Definition bind {A B} (m : result A) (f : A → result B) : result B :=
  match m with
  | Ok a => f a
  | Raise e => Raise e
  end.

#[global] Instance result_ret : MRet result := @Ok.
#[global] Instance result_bind : MBind result := λ A B f m, bind m f.

(** Floating point numbers are read as the rationals they denote. *)
Definition float := Q.
Bind Scope Q_scope with float.

Definition Qltb (a b : Q) : bool := negb (Qle_bool b a).

(** [round(x)]: to the nearest integer, ties to the even one. *)
Definition round (x : float) : Z :=
  let f := Qfloor x in
  let r := (x - inject_Z f)%Q in
  if Qltb r (1 # 2) then f
  else if Qltb (1 # 2) r then f + 1
  else if Z.even f then f else f + 1.

(** [max(xs)] of a non-empty sequence, first maximum kept as Python does. *)
Definition Qmax_list (x : Q) (xs : list Q) : Q :=
  fold_left (λ m y, if Qltb m y then y else m) xs x.

(** [abs(x)] *)
Definition Qabs_f (x : Q) : Q := if Qltb x 0 then (- x)%Q else x.

(** [str(n)] for an [int]. *)
Definition str_of_int (n : Z) : str := lit (NilZero.string_of_int (Z.to_int n)).

(** Basic Latin, where every version of the Unicode database agrees. *)
Definition is_ascii (c : char) : bool := (c <? 128)%N.

Definition in_range (lo hi : string) (c : char) : bool :=
  match lit lo, lit hi with
  | [a], [b] => (a <=? c)%N && (c <=? b)%N
  | _, _ => false
  end.

Definition ascii_isspace (c : char) : bool :=
  ((9 <=? c)%N && (c <=? 13)%N) || ((28 <=? c)%N && (c <=? 32)%N).

Definition ascii_decimal (c : char) : option Z :=
  if in_range "0" "9" c then Some (Z.of_N c - 48) else None.

Definition ascii_isupper (c : char) : bool := in_range "A" "Z" c.
Definition ascii_islower (c : char) : bool := in_range "a" "z" c.

Definition ascii_isalnum (c : char) : bool :=
  in_range "0" "9" c || ascii_isupper c || ascii_islower c.

Definition ascii_lower_c (c : char) : char :=
  if ascii_isupper c then (c + 32)%N else c.

Definition ascii_ignorecase (p c : char) : bool :=
  (ascii_lower_c p =? ascii_lower_c c)%N.

(** The part of the Unicode character database the program reaches
    through [str] methods, [re] and [unicodedata]. Its tables differ from
    one version of Python to the next, so they are a parameter of the
    model; only Basic Latin is fixed, and built in below. *)
Class Unicode := {
  (** [unicodedata.normalize('NFKC', s)] *)
  unicode_NFKC : str → str;
  (** white space *)
  unicode_space : char → bool;
  (** decimal digit value *)
  unicode_decimal : char → option Z;
  (** digit, in the sense of [str.isdigit] *)
  unicode_digit : char → bool;
  (** alphanumeric *)
  unicode_alnum : char → bool;
  (** [str.lower] *)
  unicode_lower : str → str;
  (** the case properties *)
  unicode_islower : char → bool;
  unicode_istitle : char → bool;
  unicode_isupper : char → bool;
  (** [unicode_ignorecase p c]: the literal [p] of a pattern compiled
      with re.IGNORECASE accepts the character [c] *)
  unicode_ignorecase : char → char → bool
}.

Section Tables.
Context {U : Unicode}.

(** [unicodedata.normalize('NFKC', s)]: Basic Latin text is in normal
    form. *)
Definition normalize_NFKC (s : str) : str :=
  if forallb is_ascii s then s else unicode_NFKC s.

(** White space: [str.strip], [str.split] and [\s]. *)
Definition isspace (c : char) : bool :=
  if is_ascii c then ascii_isspace c else unicode_space c.

(** Decimal digit value: [\d] and [int]. *)
Definition decimal (c : char) : option Z :=
  if is_ascii c then ascii_decimal c else unicode_decimal c.

(** [str.isdigit] on one character. *)
Definition isdigit_c (c : char) : bool :=
  if is_ascii c then in_range "0" "9" c else unicode_digit c.

(** Alphanumeric: with ["_"], the word characters of [\w] and [\b]. *)
Definition isalnum (c : char) : bool :=
  if is_ascii c then ascii_isalnum c else unicode_alnum c.

(** [s.lower()] *)
Definition lower (s : str) : str :=
  if forallb is_ascii s then map ascii_lower_c s else unicode_lower s.

(** The case properties read by [str.isupper]. *)
Definition islower_c (c : char) : bool :=
  if is_ascii c then ascii_islower c else unicode_islower c.
Definition istitle_c (c : char) : bool :=
  if is_ascii c then false else unicode_istitle c.
Definition isupper_c (c : char) : bool :=
  if is_ascii c then ascii_isupper c else unicode_isupper c.

(** A literal letter of a pattern under re.IGNORECASE. *)
Definition ignorecase (p c : char) : bool :=
  if is_ascii p && is_ascii c then ascii_ignorecase p c
  else unicode_ignorecase p c.
End Tables.

Section StrMethods.
Context {U : Unicode}.

Definition is_decimal (c : char) : bool :=
  match decimal c with Some _ => true | None => false end.

Definition is_word (c : char) : bool :=
  isalnum c || (c =? 95)%N.

(** [s.lstrip()], [s.rstrip()], [s.strip()] *)
Fixpoint lstrip (s : str) : str :=
  match s with
  | c :: s' => if isspace c then lstrip s' else s
  | [] => []
  end.

Fixpoint rstrip (s : str) : str :=
  match s with
  | c :: s' =>
      match rstrip s' with
      | [] => if isspace c then [] else [c]
      | r => c :: r
      end
  | [] => []
  end.

Definition strip (s : str) : str := rstrip (lstrip s).

(** [s.split()]: the maximal runs of characters that are not white space. *)
Fixpoint split_aux (cur : str) (s : str) : list str :=
  match s with
  | c :: s' =>
      if isspace c
      then match cur with
           | [] => split_aux [] s'
           | _ => rev cur :: split_aux [] s'
           end
      else split_aux (c :: cur) s'
  | [] => match cur with [] => [] | _ => [rev cur] end
  end.

Definition split (s : str) : list str := split_aux [] s.

(** [s.isdigit()] *)
Definition isdigit (s : str) : bool :=
  match s with
  | [] => false
  | _ => forallb isdigit_c s
  end.

(** [s.isupper()] *)
Fixpoint isupper_aux (cased : bool) (s : str) : bool :=
  match s with
  | c :: s' =>
      if islower_c c || istitle_c c then false
      else isupper_aux (cased || isupper_c c) s'
  | [] => cased
  end.

Definition isupper (s : str) : bool := isupper_aux false s.

(** [int(s)] for a string of one character. *)
Definition int_of_char (c : char) : result Z :=
  match decimal c with
  | Some d => Ok d
  | None => Raise ValueError
  end.
End StrMethods.

(** [t.startswith(p)] as a test on lists. *)
Fixpoint startswith (p t : str) : bool :=
  match p, t with
  | [], _ => true
  | a :: p', b :: t' => (a =? b)%N && startswith p' t'
  | _ :: _, [] => false
  end.

(** [p in t] *)
Fixpoint contains (p t : str) : bool :=
  startswith p t ||
  match t with
  | _ :: t' => contains p t'
  | [] => false
  end.

(** [t.endswith(p)] *)
Definition endswith (p t : str) : bool := startswith (rev p) (rev t).

(** [t.count(c)] for a pattern of one character. *)
Definition count_char (c : char) (t : str) : Z :=
  Z.of_nat (length (filter (λ x, x = c) t)).

(** [sep.join(parts)] *)
Fixpoint join (sep : str) (parts : list str) : str :=
  match parts with
  | [] => []
  | [p] => p
  | p :: ps => p ++ sep ++ join sep ps
  end.

(** [t.replace(c, r)] for a pattern of one character. *)
Definition replace_char (c : char) (r : str) (t : str) : str :=
  concat (map (λ x, if (x =? c)%N then r else [x]) t).

(** [sorted(l, key=...)] and [l.sort(key=...)]: a stable sort, [lt] being
    the order of the keys. *)
Fixpoint insert_by {A} (lt : A → A → bool) (x : A) (l : list A) : list A :=
  match l with
  | y :: l' => if lt y x then y :: insert_by lt x l' else x :: l
  | [] => [x]
  end.

Definition sort_by {A} (lt : A → A → bool) (l : list A) : list A :=
  foldr (insert_by lt) [] l.

(** [t[1:]], [t[:-1]] and [t[1:-1]] *)
Definition but_first (t : str) : str := tail t.
Definition but_last (t : str) : str := removelast t.

End Py.

(** ** The [re] module

    A backtracking matcher for the constructs the program's patterns use.
    Alternatives are tried left to right and repetitions are greedy, as in
    Python; a group keeps the text of its last iteration. *)

Module Re.
Import Py.

Inductive cls :=
| Digit                     (* \d *)
| Space                     (* \s *)
| Chr (c : char)            (* a literal character *)
| ChrI (c : char)           (* a literal letter under re.IGNORECASE *)
| Range (lo hi : char)      (* [lo-hi] *)
| Union (a b : cls).        (* [ab] *)

Inductive re :=
| Eps
| Cls (c : cls)
| Seq (r1 r2 : re)
| Alt (r1 r2 : re)
| Rep (min : nat) (r : re)  (* r{min,}: r* is Rep 0 r, r+ is Rep 1 r *)
| Group (n : nat) (r : re)  (* the n-th capturing group *)
| Bol                       (* ^ *)
| WordB                     (* \b *)
| Ahead (r : re).           (* (?=r) *)

(** Captured groups, the latest binding first. *)
Definition caps := list (nat * str).

Fixpoint group (g : caps) (n : nat) : option str :=
  match g with
  | (k, s) :: g' => if (k =? n)%nat then Some s else group g' n
  | [] => None
  end.

(** A position in the subject: the character before it and the text
    from it on. *)
Definition state := (option char * str * caps)%type.
Definition cont := option char → str → caps → option state.

Fixpoint sequence (rs : list re) : re :=
  match rs with
  | [] => Eps
  | [r] => r
  | r :: rs' => Seq r (sequence rs')
  end.

Fixpoint alternatives (rs : list re) : re :=
  match rs with
  | [] => Eps
  | [r] => r
  | r :: rs' => Alt r (alternatives rs')
  end.

(** A literal string, and the same under re.IGNORECASE. *)
Definition text (s : string) : re := sequence (map (λ c, Cls (Chr c)) (lit s)).
Definition textI (s : string) : re :=
  sequence
    (map (λ c, Cls (if ascii_isupper c || ascii_islower c then ChrI c else Chr c))
       (lit s)).

(** A set of characters [[...]]. *)
Fixpoint one_of_list (cs : list char) : cls :=
  match cs with
  | [] => Range 1%N 0%N
  | [c] => Chr c
  | c :: cs' => Union (Chr c) (one_of_list cs')
  end.
Definition one_of (s : string) : cls := one_of_list (lit s).

(** A range of characters [[lo-hi]]. *)
Definition range (lo hi : string) : cls :=
  match lit lo, lit hi with
  | [a], [b] => Range a b
  | _, _ => Range 1%N 0%N
  end.

Section Matcher.
Context {U : Unicode}.

Fixpoint cls_match (c : cls) (x : char) : bool :=
  match c with
  | Digit => is_decimal x
  | Space => isspace x
  | Chr a => (a =? x)%N
  | ChrI a => ignorecase a x
  | Range lo hi => (lo <=? x)%N && (x <=? hi)%N
  | Union a b => cls_match a x || cls_match b x
  end.

Definition word_before (prev : option char) : bool :=
  match prev with Some p => is_word p | None => false end.

Definition word_here (s : str) : bool :=
  match s with x :: _ => is_word x | [] => false end.

(** The loop of a repetition [r{min,}]: [step] matches [r] once. The
    first [need] rounds are compulsory; after them a further round is
    tried first, and has to consume text. *)
Fixpoint rep_loop (step : option char → str → caps → cont → option state)
    (k : cont) (fuel need : nat) (prev : option char) (s : str) (g : caps)
  : option state :=
  match fuel with
  | O => None
  | S fuel' =>
      match need with
      | S need' =>
          step prev s g (λ p' s' g', rep_loop step k fuel' need' p' s' g')
      | O =>
          match step prev s g
                  (λ p' s' g',
                    if (length s' <? length s)%nat
                    then rep_loop step k fuel' O p' s' g' else None) with
          | Some st => Some st
          | None => k prev s g
          end
      end
  end.

Fixpoint m (r : re) (prev : option char) (s : str) (g : caps) (k : cont)
  : option state :=
  match r with
  | Eps => k prev s g
  | Cls c =>
      match s with
      | x :: s' => if cls_match c x then k (Some x) s' g else None
      | [] => None
      end
  | Seq r1 r2 => m r1 prev s g (λ p' s' g', m r2 p' s' g' k)
  | Alt r1 r2 =>
      match m r1 prev s g k with
      | Some st => Some st
      | None => m r2 prev s g k
      end
  | Rep min r' => rep_loop (m r') k (S (min + length s)) min prev s g
  | Group n r' =>
      m r' prev s g
        (λ p' s' g', k p' s' ((n, take (length s - length s') s) :: g'))
  | Bol => match prev with None => k prev s g | Some _ => None end
  | WordB =>
      if xorb (word_before prev) (word_here s) then k prev s g else None
  | Ahead r' =>
      match m r' prev s g (λ p' s' g', Some (p', s', g')) with
      | Some (_, _, g') => k prev s g'
      | None => None
      end
  end.

(** The top of a match. After an empty match the next one must not be
    empty at the same place ([must_advance] in CPython's engine). *)
Definition accept (must_advance : bool) (s0 : str) : cont :=
  λ p s g,
    if must_advance && (length s =? length s0)%nat then None
    else Some (p, s, g).

(** A match: the text skipped before it, the text matched, the position
    after it and the groups. *)
Record Match := {
  skipped : str;
  matched : str;
  after : option char * str;
  groups : caps
}.

(** [re.match(r, t)] *)
Definition match_ (r : re) (t : str) : option Match :=
  match m r None t [] (accept false t) with
  | Some (p, s', g) =>
      Some {| skipped := []; matched := take (length t - length s') t;
              after := (p, s'); groups := g |}
  | None => None
  end.

(** The leftmost match at or after a position. *)
Fixpoint find (r : re) (must_advance : bool) (prev : option char)
    (skip : str) (s : str) : option Match :=
  match m r prev s [] (accept must_advance s) with
  | Some (p, s', g) =>
      Some {| skipped := rev skip; matched := take (length s - length s') s;
              after := (p, s'); groups := g |}
  | None =>
      match s with
      | c :: s1 => find r false (Some c) (c :: skip) s1
      | [] => None
      end
  end.

(** [re.search(r, t)] *)
Definition search (r : re) (t : str) : option Match :=
  find r false None [] t.

Definition is_empty (s : str) : bool :=
  match s with [] => true | _ => false end.

(** [re.sub(r, repl, t)] for a replacement without group references. *)
Fixpoint sub_loop (fuel : nat) (r : re) (repl : str) (must_advance : bool)
    (prev : option char) (s : str) : str :=
  match fuel with
  | O => s
  | S fuel' =>
      match find r must_advance prev [] s with
      | None => s
      | Some mt =>
          skipped mt ++ repl ++
          sub_loop fuel' r repl (is_empty (matched mt))
            (fst (after mt)) (snd (after mt))
      end
  end.

Definition sub (r : re) (repl : str) (t : str) : str :=
  sub_loop (2 * length t + 2) r repl false None t.

(** [re.split(r, t)] for a pattern with groups 1..[ngroups]: the pieces
    between the matches, each match followed by the text of its groups
    ([None] for a group that took no part in the match). *)
Fixpoint split_loop (fuel : nat) (r : re) (ngroups : nat)
    (must_advance : bool) (prev : option char) (s : str)
    : list (option str) :=
  match fuel with
  | O => [Some s]
  | S fuel' =>
      match find r must_advance prev [] s with
      | None => [Some s]
      | Some mt =>
          Some (skipped mt) ::
          map (λ n, group (groups mt) n) (seq 1 ngroups) ++
          split_loop fuel' r ngroups (is_empty (matched mt))
            (fst (after mt)) (snd (after mt))
      end
  end.

Definition split (r : re) (ngroups : nat) (t : str) : list (option str) :=
  split_loop (2 * length t + 2) r ngroups false None t.
End Matcher.

End Re.

(** ** A small Unicode database

    The instance used to run the model on concrete documents. Beyond Basic
    Latin it knows the white space characters, and its normal form maps
    the compatibility characters the program names (the ligatures U+FB01
    and U+FB02) and the no-break space. *)

Module Latin.
Import Py.

Definition space (c : char) : bool :=
  bool_decide (c ∈ [133; 160; 5760; 8232; 8233; 8239; 8287; 12288]%N) ||
  ((8192 <=? c)%N && (c <=? 8202)%N).

Definition compat (c : char) : str :=
  if (c =? 64257)%N then lit "fi"
  else if (c =? 64258)%N then lit "fl"
  else if (c =? 160)%N then lit " "
  else [c].

Definition NFKC (s : str) : str := concat (map compat s).

(** A character the normal form leaves alone. *)
Definition fixed (c : char) : Prop := compat c = [c].

Definition unicode : Unicode := {|
  unicode_NFKC := NFKC;
  unicode_space := space;
  unicode_decimal := λ _, None;
  unicode_digit := λ _, false;
  unicode_alnum := λ _, false;
  unicode_lower := λ s, s;
  unicode_islower := λ _, false;
  unicode_istitle := λ _, false;
  unicode_isupper := λ _, false;
  unicode_ignorecase := λ p c, (p =? c)%N
|}.

End Latin.

(** ** The decoding backend

    What [fitz] hands to the program: per page the text blocks with their
    boxes, lines and spans, the plain text and the words; per document
    the pages and the embedded table of contents. *)

Module Backend.
Import Py.

Module Span.
Record t := { text : str; size : float; font : str }.
End Span.

Module Line.
Record t := { spans : list Span.t }.
End Line.

(** [bbox[0]], [bbox[1]], [bbox[2]], [bbox[3]] *)
Record BBox := { x0 : float; y0 : float; x1 : float; y1 : float }.

Module Block.
(** [type] is 0 for a text block; other blocks carry no lines. *)
Record t := { type : Z; bbox : BBox; lines : list Line.t }.
End Block.

Module Page.
Record t := {
  rect_width : float;
  rect_height : float;
  (** [get_text("dict")["blocks"]] *)
  blocks : list Block.t;
  (** [get_text("dict", flags=0)["blocks"]] *)
  blocks_flags0 : list Block.t;
  (** [get_text("text", flags=0)] *)
  text_flags0 : str;
  (** [get_text("words")] *)
  words : list str
}.
End Page.

Module Document.
(** [get_toc()] yields [(level, title, page)] entries. *)
Record t := { pages : list Page.t; get_toc : list (Z * str * Z) }.
Definition page_count (doc : t) : Z := Z.of_nat (length (pages doc)).
End Document.

End Backend.

(** ** main.py *)

Import Py Backend.

(** The pattern [\s+] of [clean_text]. *)
Definition whitespace_run : Re.re := Re.Rep 1 (Re.Cls Re.Space).

Definition ligature_fi : char := 64257%N.
Definition ligature_fl : char := 64258%N.

Definition clean_text {U : Unicode} (text : str) : str :=
  match text with
  | [] => []
  | _ =>
      let text := normalize_NFKC text in
      let text :=
        strip (replace_char ligature_fl (lit "fl")
                 (replace_char ligature_fi (lit "fi") text)) in
      Re.sub whitespace_run (lit " ") text
  end.

(** A heading candidate: [{'text', 'page', 'style', 'bbox'}]. *)
Module Heading.
Record t := { text : str; page : Z; style : Z * bool; bbox : BBox }.
End Heading.

(** An outline item: [{"level", "text", "page"}]. *)
Module OutlineItem.
Record t := { level : str; text : str; page : Z }.
Definition set_level (l : str) (i : t) : t :=
  {| level := l; text := text i; page := page i |}.
Definition set_text (s : str) (i : t) : t :=
  {| level := level i; text := s; page := page i |}.
End OutlineItem.

(** The result of an extraction: [{"title", "outline"}]. *)
Module Extraction.
Record t := { title : str; outline : list OutlineItem.t }.
End Extraction.

(** ["H{level}"] *)
Definition H (level : Z) : str := lit "H" ++ str_of_int level.

Module BaseStrategy.
Section WithUnicode.
Context {U : Unicode}.

(** [int(item['level'][1])] *)
Definition level_num (item : OutlineItem.t) : result Z :=
  match OutlineItem.level item !! 1%nat with
  | Some c => int_of_char c
  | None => Raise IndexError
  end.

(** The loop of [_post_process_outline]; [last] is [final_outline[-1]]. *)
Fixpoint post_process_loop (last : OutlineItem.t) (rest : list OutlineItem.t)
  : result (list OutlineItem.t) :=
  match rest with
  | [] => Ok []
  | current_item :: rest' =>
      last_level_num ← level_num last;
      current_level_num ← level_num current_item;
      let current_item :=
        if last_level_num + 1 <? current_level_num
        then OutlineItem.set_level (H (last_level_num + 1)) current_item
        else current_item in
      final ← post_process_loop current_item rest';
      Ok (current_item :: final)
  end.

Definition _post_process_outline (outline : list OutlineItem.t)
  : result (list OutlineItem.t) :=
  match outline with
  | [] => Ok []
  | first :: rest =>
      final ← post_process_loop first rest;
      Ok (first :: final)
  end.

(** [headings.sort(key=lambda h: (h['page'], h['bbox'][1]))]: the keys
    are tuples, compared as Python compares tuples. *)
Definition key_lt (a b : Heading.t) : bool :=
  (Heading.page a <? Heading.page b) ||
  ((Heading.page a =? Heading.page b) &&
   Qltb (y0 (Heading.bbox a)) (y0 (Heading.bbox b))).

(** [sorted(list({h['style'] ...}), key=lambda x: (x[0], x[1]), reverse=True)] *)
Definition style_lt (a b : Z * bool) : bool :=
  (fst a <? fst b) || ((fst a =? fst b) && negb (snd a) && snd b).

Definition heading_styles (headings : list Heading.t) : list (Z * bool) :=
  let styles : gset (Z * bool) := list_to_set (map Heading.style headings) in
  sort_by (λ a b, style_lt b a) (elements styles).

(** [heading_styles.index(style)] *)
Fixpoint index {A} `{EqDecision A} (x : A) (l : list A) : option Z :=
  match l with
  | y :: l' => if decide (y = x) then Some 0 else Z.succ <$> index x l'
  | [] => None
  end.

(** The pattern [^(D(\.D){0,})] where [D] is [\d+]: the leading numbering,
    written in the source with a star for [{0,}]. *)
Definition numbering : Re.re :=
  Re.Seq Re.Bol
    (Re.Group 1
       (Re.Seq (Re.Rep 1 (Re.Cls Re.Digit))
          (Re.Rep 0 (Re.Group 2 (Re.Seq (Re.text ".")
                                    (Re.Rep 1 (Re.Cls Re.Digit))))))).

Definition dot : char := 46%N.

Definition assign_level (heading_styles : list (Z * bool)) (h : Heading.t)
  : OutlineItem.t :=
  let level :=
    match Re.match_ numbering (Heading.text h) with
    | Some mt =>
        Z.min (count_char dot (default [] (Re.group (Re.groups mt) 1)) + 1) 3
    | None =>
        match index (Heading.style h) heading_styles with
        | Some rank => Z.min (rank + 1) 3
        | None => 3
        end
    end in
  {| OutlineItem.level := H level;
     OutlineItem.text := Heading.text h;
     OutlineItem.page := Heading.page h + 1 |}.

(** The loop that keeps the first item of every [(text, page)]. *)
Fixpoint unique (seen : gset (str * Z)) (outline : list OutlineItem.t)
  : list OutlineItem.t :=
  match outline with
  | item :: outline' =>
      let identifier := (OutlineItem.text item, OutlineItem.page item) in
      if decide (identifier ∈ seen) then unique seen outline'
      else item :: unique ({[identifier]} ∪ seen) outline'
  | [] => []
  end.

Definition _structure_headings (headings : list Heading.t)
  : result (list OutlineItem.t) :=
  match headings with
  | [] => Ok []
  | _ =>
      let headings := sort_by key_lt headings in
      let heading_styles := heading_styles headings in
      let outline := map (assign_level heading_styles) headings in
      let unique_outline := unique ∅ outline in
      _post_process_outline unique_outline
  end.
End WithUnicode.
End BaseStrategy.

(** The expression
    [clean_text(" ".join(s['text'] for l in b['lines'] for s in l['spans']))]
    that every scan applies to a block. *)
Definition block_spans (b : Block.t) : list Span.t :=
  flat_map Line.spans (Block.lines b).

Definition block_text {U : Unicode} (b : Block.t) : str :=
  clean_text (join (lit " ") (map Span.text (block_spans b))).

Definition nonempty {A} (l : list A) : bool :=
  match l with [] => false | _ => true end.

(** [len(t.split())] *)
Definition word_count {U : Unicode} (t : str) : Z := Z.of_nat (length (split t)).

(** [abs(center_pos - page_width / 2) < page_width * 0.25] *)
Definition centered (bbox : BBox) (page_width : float) : bool :=
  let center_pos := ((x0 bbox + x1 bbox) / 2)%Q in
  Qltb (Qabs_f (center_pos - page_width / 2)) (page_width * (25 # 100)).

(** The pattern [\b(title|abstract)\b] under re.IGNORECASE. *)
Definition title_keyword : Re.re :=
  Re.sequence
    [Re.WordB; Re.Group 1 (Re.Alt (Re.textI "title") (Re.textI "abstract"));
     Re.WordB].

Module TOCStrategy.
Section WithUnicode.
Context {U : Unicode}.

(** Fallback 1: the first centred block with a short text. *)
Fixpoint centered_title (page_width : float) (blocks : list Block.t)
  : option str :=
  match blocks with
  | block :: blocks' =>
      let text := block_text block in
      if centered (Block.bbox block) page_width
         && nonempty text && (word_count text <? 20)
      then Some text
      else centered_title page_width blocks'
  | [] => None
  end.

(** Fallback 2: the first block with one of the keywords. *)
Fixpoint keyword_title (blocks : list Block.t) : option str :=
  match blocks with
  | block :: blocks' =>
      let text := block_text block in
      match Re.search title_keyword text with
      | Some _ => Some text
      | None => keyword_title blocks'
      end
  | [] => None
  end.

Definition _extract_title (doc : Document.t) : str :=
  match Document.pages doc with
  | [] => []
  | page :: _ =>
      let page_width := Page.rect_width page in
      let blocks :=
        List.filter
          (λ b, (Block.type b =? 0) &&
                Qltb (y1 (Block.bbox b)) (Page.rect_height page * (6 # 10)))
          (Page.blocks page) in
      match blocks with
      | [] => []
      | _ =>
          let fallbacks :=
            match centered_title page_width blocks with
            | Some text => text
            | None => default [] (keyword_title blocks)
            end in
          let spans :=
            List.filter (λ s, nonempty (strip (Span.text s)))
              (flat_map block_spans blocks) in
          match spans with
          | [] => fallbacks
          | s :: spans' =>
              let top_size := Qmax_list (Span.size s) (map Span.size spans') in
              let title_candidates :=
                List.filter
                  (λ s, round (top_size * (9 # 10))%Q <=? round (Span.size s))
                  spans in
              match title_candidates with
              | [] => fallbacks
              | _ =>
                  let title_text :=
                    join (lit " ")
                      (map Span.text
                         (List.filter
                            (λ s, round (Span.size s) =? round top_size)
                            title_candidates)) in
                  clean_text title_text
              end
          end
      end
  end.

(** The pattern [\s+\.{2,}\s*\d+]: a dot leader and its page number. *)
Definition dot_leader : Re.re :=
  Re.sequence
    [Re.Rep 1 (Re.Cls Re.Space); Re.Rep 2 (Re.text ".");
     Re.Rep 0 (Re.Cls Re.Space); Re.Rep 1 (Re.Cls Re.Digit)].

(** The pattern [(?=\d+(\.\d+)+\s)]: a look-ahead for a nested numbering;
    its one capturing group is the repeated [(\.\d+)]. *)
Definition nested_numbering : Re.re :=
  Re.Ahead
    (Re.sequence
       [Re.Rep 1 (Re.Cls Re.Digit);
        Re.Rep 1 (Re.Group 1 (Re.Seq (Re.text ".")
                                (Re.Rep 1 (Re.Cls Re.Digit))));
        Re.Cls Re.Space]).

(** The inner loop of [_process_toc] over the pieces of [re.split]. *)
Fixpoint sub_heading_items (level page : Z) (sub_headings : list (option str))
  : result (list OutlineItem.t) :=
  match sub_headings with
  | [] => Ok []
  | None :: _ => Raise AttributeError
  | Some sub_heading :: rest =>
      items ← sub_heading_items level page rest;
      if nonempty (strip sub_heading)
      then Ok ({| OutlineItem.level := H level;
                  OutlineItem.text := strip sub_heading;
                  OutlineItem.page := page + 1 |} :: items)
      else Ok items
  end.

(** The items one entry of the table of contents contributes. *)
Definition entry_items (entry : Z * str * Z) : result (list OutlineItem.t) :=
  let '(level, title, page) := entry in
  if level <=? 3 then
    let cleaned_title := clean_text (Re.sub dot_leader [] title) in
    if (2 <? Z.of_nat (length cleaned_title)) && negb (isdigit cleaned_title)
    then sub_heading_items level page (Re.split nested_numbering 1 cleaned_title)
    else Ok []
  else Ok [].

Fixpoint toc_items (toc : list (Z * str * Z)) : result (list OutlineItem.t) :=
  match toc with
  | [] => Ok []
  | entry :: toc' =>
      items ← entry_items entry;
      rest ← toc_items toc';
      Ok (items ++ rest)
  end.

Definition _process_toc (toc : list (Z * str * Z))
  : result (list OutlineItem.t) :=
  outline ← toc_items toc;
  BaseStrategy._post_process_outline outline.

Definition extract (doc : Document.t) : result Extraction.t :=
  let title := _extract_title doc in
  let toc := Document.get_toc doc in
  outline ← _process_toc toc;
  Ok {| Extraction.title := title; Extraction.outline := outline |}.
End WithUnicode.
End TOCStrategy.

(** A [collections.Counter], in insertion order. *)
Definition Counter := list (Z * Z).

Fixpoint counter_add (key n : Z) (c : Counter) : Counter :=
  match c with
  | (k, v) :: c' =>
      if k =? key then (k, v + n) :: c' else (k, v) :: counter_add key n c'
  | [] => [(key, n)]
  end.

(** [c.most_common(1)[0]]: the first entry with the largest count. *)
Definition most_common_1 (first : Z * Z) (c : Counter) : Z * Z :=
  fold_left (λ best e, if snd best <? snd e then e else best) c first.

(** The objects [_get_strategy] builds: the class and the attributes set
    by its [__init__]. *)
Module Strategy.
Inductive t :=
| TOC (doc : Document.t)
| Heuristic (doc : Document.t) (font_stats : Counter) (body_size : Z)
| Form (doc : Document.t) (font_stats : Counter) (body_size : Z)
| VisualLayout (doc : Document.t) (font_stats : Counter) (body_size : Z).
End Strategy.

(** ["bold" in first_span['font'].lower()] *)
Definition font_is_bold {U : Unicode} (span : Span.t) : bool :=
  contains (lit "bold") (lower (Span.font span)).

(** [b['lines'][0]['spans'][0]] *)
Definition first_span_of (b : Block.t) : result Span.t :=
  match Block.lines b with
  | [] => Raise IndexError
  | line :: _ =>
      match Line.spans line with
      | [] => Raise IndexError
      | span :: _ => Ok span
      end
  end.

Module HeuristicStrategy.
Section WithUnicode.
Context {U : Unicode}.

Definition _analyze_font_stats (doc : Document.t) : Counter :=
  fold_left
    (λ counts page,
      fold_left
        (λ counts block,
          if Block.type block =? 0 then
            fold_left
              (λ counts span,
                if nonempty (strip (Span.text span))
                then counter_add (round (Span.size span))
                       (Z.of_nat (length (strip (Span.text span)))) counts
                else counts)
              (block_spans block) counts
          else counts)
        (Page.blocks_flags0 page) counts)
    (Document.pages doc) [].

Definition _get_dominant_font_size (font_stats : Counter) : Z :=
  match font_stats with
  | [] => 10
  | first :: rest => fst (most_common_1 first rest)
  end.

(** [__init__] *)
Definition init (doc : Document.t) : Counter * Z :=
  let font_stats := _analyze_font_stats doc in
  (font_stats, _get_dominant_font_size font_stats).

(** Fallback 1: the first centred block with a short text. *)
Fixpoint centered_title (page_width : float) (blocks : list Block.t)
  : option str :=
  match blocks with
  | block :: blocks' =>
      let text := block_text block in
      if centered (Block.bbox block) page_width
         && nonempty text && (word_count text <? 20)
      then Some text
      else centered_title page_width blocks'
  | [] => None
  end.

(** Fallback 2: the first block with one of the keywords. *)
Fixpoint keyword_title (blocks : list Block.t) : option str :=
  match blocks with
  | block :: blocks' =>
      let text := block_text block in
      match Re.search title_keyword text with
      | Some _ => Some text
      | None => keyword_title blocks'
      end
  | [] => None
  end.

Definition _extract_title (doc : Document.t) : str :=
  match Document.pages doc with
  | [] => []
  | page :: _ =>
      let page_width := Page.rect_width page in
      let blocks :=
        List.filter
          (λ b, (Block.type b =? 0) &&
                Qltb (y1 (Block.bbox b)) (Page.rect_height page * (6 # 10)))
          (Page.blocks page) in
      match blocks with
      | [] => []
      | _ =>
          let fallbacks :=
            match centered_title page_width blocks with
            | Some text => text
            | None => default [] (keyword_title blocks)
            end in
          let spans :=
            List.filter (λ s, nonempty (strip (Span.text s)))
              (flat_map block_spans blocks) in
          match spans with
          | [] => fallbacks
          | s :: spans' =>
              let top_size := Qmax_list (Span.size s) (map Span.size spans') in
              let title_candidates :=
                List.filter
                  (λ s, round (top_size * (9 # 10))%Q <=? round (Span.size s))
                  spans in
              match title_candidates with
              | [] => fallbacks
              | _ =>
                  let title_text :=
                    join (lit " ")
                      (map Span.text
                         (List.filter
                            (λ s, round (Span.size s) =? round top_size)
                            title_candidates)) in
                  clean_text title_text
              end
          end
      end
  end.

(** The pattern [^((D(\.D){0,})|(Appendix\s+[A-Z])|([IVXLCDM]+\.))\b],
    where [D] is [\d+]. *)
Definition section_numbering : Re.re :=
  Re.sequence
    [Re.Bol;
     Re.Group 1
       (Re.alternatives
          [Re.Group 2
             (Re.Seq (Re.Rep 1 (Re.Cls Re.Digit))
                (Re.Rep 0 (Re.Group 3 (Re.Seq (Re.text ".")
                                          (Re.Rep 1 (Re.Cls Re.Digit))))));
           Re.Group 4
             (Re.sequence
                [Re.text "Appendix"; Re.Rep 1 (Re.Cls Re.Space);
                 Re.Cls (Re.range "A" "Z")]);
           Re.Group 5
             (Re.Seq (Re.Rep 1 (Re.Cls (Re.one_of "IVXLCDM"))) (Re.text "."))]);
     Re.WordB].

(** The score of a block, each line one [score += ...] of the source. *)
Definition score (body_size size : Z) (is_bold : bool) (block_text : str) : Z :=
  let score := 0 in
  let score :=
    if body_size <? size then score + (size - body_size) * 5 else score in
  let score := if is_bold then score + 10 else score in
  let score := if word_count block_text <? 12 then score + 10 else score in
  let score :=
    if negb (endswith (lit ".") block_text || endswith (lit ":") block_text
             || endswith (lit ";") block_text)
    then score + 5 else score in
  let score :=
    if bool_decide (is_Some (Re.match_ section_numbering block_text))
    then score + 30 else score in
  let score :=
    if (25 <? word_count block_text)
       || (contains (lit ".") (but_last (but_first block_text))
           && (30 <? Z.of_nat (length block_text)))
    then score - 20 else score in
  score.

(** The body of the loop over the blocks of a page: [None] for a block
    the scan passes over. *)
Definition scan_block (body_size : Z) (page_height : float) (page_num : Z)
    (b : Block.t) : result (option Heading.t) :=
  if negb (Block.type b =? 0) || negb (nonempty (Block.lines b)) then Ok None
  else
    let block_text := block_text b in
    if negb (nonempty block_text) then Ok None
    else if Qltb (y0 (Block.bbox b)) 50
            || Qltb (page_height - 50) (y1 (Block.bbox b)) then Ok None
    else
      first_span ← first_span_of b;
      let size := round (Span.size first_span) in
      let is_bold := font_is_bold first_span in
      if 25 <=? score body_size size is_bold block_text
      then Ok (Some {| Heading.text := block_text;
                       Heading.page := page_num;
                       Heading.style := (size, is_bold);
                       Heading.bbox := Block.bbox b |})
      else Ok None.

Fixpoint scan_blocks (body_size : Z) (page_height : float) (page_num : Z)
    (blocks : list Block.t) : result (list Heading.t) :=
  match blocks with
  | [] => Ok []
  | b :: blocks' =>
      h ← scan_block body_size page_height page_num b;
      headings ← scan_blocks body_size page_height page_num blocks';
      Ok (option_list h ++ headings)
  end.

Fixpoint scan_pages (body_size : Z) (page_num : Z) (pages : list Page.t)
  : result (list Heading.t) :=
  match pages with
  | [] => Ok []
  | page :: pages' =>
      here ← scan_blocks body_size (Page.rect_height page) page_num
                (Page.blocks page);
      headings ← scan_pages body_size (page_num + 1) pages';
      Ok (here ++ headings)
  end.

Definition _find_headings (doc : Document.t) (body_size : Z)
  : result (list Heading.t) :=
  scan_pages body_size 0 (Document.pages doc).

Definition extract (doc : Document.t) (body_size : Z) : result Extraction.t :=
  let title := _extract_title doc in
  headings ← _find_headings doc body_size;
  outline ← BaseStrategy._structure_headings headings;
  Ok {| Extraction.title := title; Extraction.outline := outline |}.
End WithUnicode.
End HeuristicStrategy.

Module FormStrategy.
Definition extract {U : Unicode} (doc : Document.t) : result Extraction.t :=
  let title := HeuristicStrategy._extract_title doc in
  Ok {| Extraction.title := title; Extraction.outline := [] |}.
End FormStrategy.

Module VisualLayoutStrategy.
Section WithUnicode.
Context {U : Unicode}.

(** The pattern
    [:|\/|www\.|\.com|address|required|waiver|parents|regular pathway]
    under re.IGNORECASE. *)
Definition noise_pattern : Re.re :=
  Re.alternatives
    [Re.textI ":"; Re.textI "/"; Re.textI "www."; Re.textI ".com";
     Re.textI "address"; Re.textI "required"; Re.textI "waiver";
     Re.textI "parents"; Re.textI "regular pathway"].

(** The pattern [([A-Z\s]+!)]: a call to action. *)
Definition call_to_action : Re.re :=
  Re.Group 1
    (Re.Seq (Re.Rep 1 (Re.Cls (Re.Union (Re.range "A" "Z") Re.Space)))
       (Re.text "!")).

(** [bbox[1] - blocks[i-1]['bbox'][3] if i > 0 else 100] *)
Definition space_above (blocks : list Block.t) (i : nat) (bbox : BBox)
  : float :=
  match i with
  | O => 100
  | S j =>
      match blocks !! j with
      | Some prev => (y0 bbox - y1 (Block.bbox prev))%Q
      | None => 100
      end
  end.

(** [blocks[i+1]['bbox'][1] - bbox[3] if i < len(blocks) - 1 else 100] *)
Definition space_below (blocks : list Block.t) (i : nat) (bbox : BBox)
  : float :=
  match blocks !! S i with
  | Some next => (y0 (Block.bbox next) - y1 bbox)%Q
  | None => 100
  end.

(** The score of a block, each line one [score += ...] of the source. *)
Definition score (body_size size : Z) (space_above space_below : float)
    (is_centered : bool) (block_text : str) : Z :=
  let score := 0 in
  let score := if Qltb 10 space_above then score + 25 else score in
  let score := if is_centered then score + 20 else score in
  let score :=
    if body_size + 1 <? size then score + (size - body_size) * 5 else score in
  let score := if word_count block_text <? 6 then score + 10 else score in
  let score :=
    if isupper block_text && (1 <? word_count block_text)
    then score + 15 else score in
  let score := if Qltb space_below 8 then score - 25 else score in
  let score :=
    if (10 <? word_count block_text)
       || contains (lit ".") (but_last block_text)
    then score - 25 else score in
  let score :=
    if bool_decide (is_Some (Re.search noise_pattern block_text))
    then score - 20 else score in
  let score :=
    if contains (lit "!") block_text && (word_count block_text <? 6)
    then score + 30 else score in
  score.

(** The text kept for a heading: the call to action when there is one. *)
Definition heading_text (block_text : str) : str :=
  match Re.search call_to_action block_text with
  | Some mt => strip (default [] (Re.group (Re.groups mt) 1))
  | None => block_text
  end.

(** The body of the loop over the sorted blocks of a page. *)
Definition scan_block (body_size : Z) (page_width : float) (page_num : Z)
    (blocks : list Block.t) (i : nat) (b : Block.t)
  : result (option Heading.t) :=
  if negb (Block.type b =? 0) || negb (nonempty (Block.lines b)) then Ok None
  else
    let block_text := block_text b in
    if negb (nonempty block_text) || (Z.of_nat (length block_text) <? 4)
    then Ok None
    else
      let bbox := Block.bbox b in
      first_span ← first_span_of b;
      let size := round (Span.size first_span) in
      if 40 <=? score body_size size (space_above blocks i bbox)
                  (space_below blocks i bbox) (centered bbox page_width)
                  block_text
      then
        let is_bold := font_is_bold first_span in
        Ok (Some {| Heading.text := heading_text block_text;
                    Heading.page := page_num;
                    Heading.style := (size, is_bold);
                    Heading.bbox := Block.bbox b |})
      else Ok None.

Fixpoint scan_from (body_size : Z) (page_width : float) (page_num : Z)
    (blocks : list Block.t) (i : nat) (rest : list Block.t)
  : result (list Heading.t) :=
  match rest with
  | [] => Ok []
  | b :: rest' =>
      h ← scan_block body_size page_width page_num blocks i b;
      headings ← scan_from body_size page_width page_num blocks (S i) rest';
      Ok (option_list h ++ headings)
  end.

(** [sorted(page.get_text("dict")["blocks"], key=lambda b: b['bbox'][1])] *)
Definition sorted_blocks (page : Page.t) : list Block.t :=
  sort_by (λ a b, Qltb (y0 (Block.bbox a)) (y0 (Block.bbox b)))
    (Page.blocks page).

Fixpoint scan_pages (body_size : Z) (page_num : Z) (pages : list Page.t)
  : result (list Heading.t) :=
  match pages with
  | [] => Ok []
  | page :: pages' =>
      let blocks := sorted_blocks page in
      here ← scan_from body_size (Page.rect_width page) page_num blocks 0
                blocks;
      headings ← scan_pages body_size (page_num + 1) pages';
      Ok (here ++ headings)
  end.

Definition extract (doc : Document.t) (body_size : Z) : result Extraction.t :=
  headings ← scan_pages body_size 0 (Document.pages doc);
  outline ← BaseStrategy._structure_headings headings;
  Ok {| Extraction.title := []; Extraction.outline := outline |}.
End WithUnicode.
End VisualLayoutStrategy.

Module PDFOutlineExtractor.
Section WithUnicode.
Context {U : Unicode}.

(** [sum(len(p.get_text("words")) for p in self.doc)] *)
Definition total_words (doc : Document.t) : Z :=
  fold_left (λ n p, n + Z.of_nat (length (Page.words p)))
    (Document.pages doc) 0.

Definition new_heuristic (doc : Document.t) : Strategy.t :=
  let '(font_stats, body_size) := HeuristicStrategy.init doc in
  Strategy.Heuristic doc font_stats body_size.

Definition new_form (doc : Document.t) : Strategy.t :=
  let '(font_stats, body_size) := HeuristicStrategy.init doc in
  Strategy.Form doc font_stats body_size.

Definition new_visual_layout (doc : Document.t) : Strategy.t :=
  let '(font_stats, body_size) := HeuristicStrategy.init doc in
  Strategy.VisualLayout doc font_stats body_size.

(** The document has no page exactly when [self.doc.page_count == 0];
    otherwise [self.doc[0]] is its first page. *)
Definition _get_strategy (doc : Document.t) : Strategy.t :=
  match Document.pages doc with
  | [] => new_heuristic doc
  | first_page :: _ =>
      let toc := Document.get_toc doc in
      if nonempty toc && (5 <? Z.of_nat (length toc)) then Strategy.TOC doc
      else
        let first_page_text := lower (Page.text_flags0 first_page) in
        if contains (lit "application form") first_page_text
           || contains (lit "grant of") first_page_text
        then new_form doc
        else if (Document.page_count doc <=? 2)
                && (total_words doc <? 800)
        then new_visual_layout doc
        else new_heuristic doc
  end.

(** [self.strategy.extract()] *)
Definition extract (strategy : Strategy.t) : result Extraction.t :=
  match strategy with
  | Strategy.TOC doc => TOCStrategy.extract doc
  | Strategy.Heuristic doc _ body_size =>
      HeuristicStrategy.extract doc body_size
  | Strategy.Form doc _ _ => FormStrategy.extract doc
  | Strategy.VisualLayout doc _ body_size =>
      VisualLayoutStrategy.extract doc body_size
  end.
End WithUnicode.
End PDFOutlineExtractor.

(** ** The batch driver *)

Module Main.

(** One file of the input directory: its stem, what [fitz.open] does with
    it, and whether the output file can be written. *)
Record PdfFile := {
  stem : str;
  fitz_open : result Document.t;
  output_writable : bool
}.

Inductive LogRecord :=
| Processing (name : str)
| Success (name : str)
| Corrupted (name : str)
| OutOfMemory (name : str)
| Unexpected (name : str)
| WriteFailed (name : str).

Definition empty_result : Extraction.t :=
  {| Extraction.title := []; Extraction.outline := [] |}.

Section WithUnicode.
Context {U : Unicode}.

(** The statements of the [try] block after [result] is assigned:
    the title and the text of every item are stripped. *)
Definition strip_result (result : Extraction.t) : Extraction.t :=
  {| Extraction.title :=
       match Extraction.title result with
       | [] => []
       | title => strip title
       end;
     Extraction.outline :=
       map (λ item, OutlineItem.set_text (strip (OutlineItem.text item)) item)
         (Extraction.outline result) |}.

(** The [try] block: [result] keeps its default when [fitz.open], the
    choice of the strategy or the extraction raises. *)
Definition try_extract (f : PdfFile) : result Extraction.t :=
  doc ← fitz_open f;
  let extractor := PDFOutlineExtractor._get_strategy doc in
  result ← PDFOutlineExtractor.extract extractor;
  Ok (strip_result result).

(** What one turn of the loop leaves in [result] and in the log. *)
Definition extract_or_default (f : PdfFile) : Extraction.t * LogRecord :=
  match try_extract f with
  | Ok result => (result, Success (stem f))
  | Raise FileDataError => (empty_result, Corrupted (stem f))
  | Raise MemoryError => (empty_result, OutOfMemory (stem f))
  | Raise _ => (empty_result, Unexpected (stem f))
  end.

(** [main]: the records written, as [(stem, record)] in the order of
    the writes, and the log. *)
Fixpoint main (files : list PdfFile)
  : list (str * Extraction.t) * list LogRecord :=
  match files with
  | [] => ([], [])
  | f :: files' =>
      let '(result, outcome) := extract_or_default f in
      let '(written, log) := main files' in
      if output_writable f
      then ((stem f, result) :: written,
            Processing (stem f) :: outcome :: log)
      else (written,
            Processing (stem f) :: outcome :: WriteFailed (stem f) :: log)
  end.
End WithUnicode.

End Main.

(** ** Notions used in the statements and proofs *)

(** What [re.sub(r'\s+', ' ', s)] computes: every run of white space
    becomes one space. [in_run] tells that the character before was white
    space. *)
Fixpoint collapse_from {U : Unicode} (in_run : bool) (s : str) : str :=
  match s with
  | c :: s' =>
      if isspace c
      then if in_run then collapse_from true s'
           else 32%N :: collapse_from true s'
      else c :: collapse_from false s'
  | [] => []
  end.

Definition collapse {U : Unicode} (s : str) : str := collapse_from false s.

(** A text that does not start, or does not end, with white space. *)
Definition starts_solid {U : Unicode} (s : str) : Prop :=
  match s with c :: _ => isspace c = false | [] => True end.

Definition ends_solid {U : Unicode} (s : str) : Prop :=
  match last s with Some c => isspace c = false | None => True end.

(** A text with no white space but single spaces. *)
Fixpoint tidy {U : Unicode} (in_run : bool) (s : str) : Prop :=
  match s with
  | c :: s' =>
      if isspace c then c = 32%N ∧ in_run = false ∧ tidy true s'
      else tidy false s'
  | [] => True
  end.

(** The character before the position reached after the text [w]. *)
Definition last_of (prev : option char) (w : str) : option char :=
  match last w with Some c => Some c | None => prev end.

(** A string in normal form NFKC. *)
Definition normal {U : Unicode} (s : str) : Prop := normalize_NFKC s = s.

(** What the proofs need of NFKC, in every version of the database:
    normalising twice changes nothing, no normal form holds one of the two
    ligatures, and white space is a boundary for normalisation: the parts
    on both sides of a white space character are normal when the whole
    is, and two normal forms joined by a space are normal. *)
Class NFKC_laws (U : Unicode) : Prop := {
  NFKC_normal s : normal (normalize_NFKC s);
  normal_no_ligature s : normal s → (ligature_fi ∉ s) ∧ (ligature_fl ∉ s);
  normal_split a w b :
    isspace w = true → normal (a ++ w :: b) → normal a ∧ normal b;
  normal_join a b : normal a → normal b → normal (a ++ 32%N :: b)
}.

(** The [(text, page)] pair that identifies an outline item. *)
Definition identifier (item : OutlineItem.t) : str * Z :=
  (OutlineItem.text item, OutlineItem.page item).

(** An item whose level is one of H1, H2, H3. *)
Definition leveled (n : Z) (item : OutlineItem.t) : Prop :=
  1 ≤ n ≤ 3 ∧ OutlineItem.level item = H n.

(** A list of items in which no level exceeds the one before it, or [n]
    for the first item, by more than one. *)
Fixpoint stepwise (n : Z) (outline : list OutlineItem.t) : Prop :=
  match outline with
  | item :: outline' =>
      ∃ k, leveled k item ∧ k ≤ n + 1 ∧ stepwise k outline'
  | [] => True
  end.

(** What the loop of [_post_process_outline] does to one item: text and
    page stay, the level never goes up, and a level of at most 2 stays. *)
Definition kept (x y : OutlineItem.t) : Prop :=
  identifier x = identifier y ∧
  ∃ k k', leveled k x ∧ leveled k' y ∧ k' ≤ k ∧ (k ≤ 2 → k' = k).

(** The four classes of strategy. *)
Module Kind.
Inductive t := TOC | Heuristic | Form | VisualLayout.
End Kind.

Definition kind (s : Strategy.t) : Kind.t :=
  match s with
  | Strategy.TOC _ => Kind.TOC
  | Strategy.Heuristic _ _ _ => Kind.Heuristic
  | Strategy.Form _ _ _ => Kind.Form
  | Strategy.VisualLayout _ _ _ => Kind.VisualLayout
  end.

Definition strategy_doc (s : Strategy.t) : Document.t :=
  match s with
  | Strategy.TOC doc
  | Strategy.Heuristic doc _ _
  | Strategy.Form doc _ _
  | Strategy.VisualLayout doc _ _ => doc
  end.

(** The selector as the specification words it: five rules, the first
    that applies wins. *)
Definition first_page_lowercase_text {U : Unicode} (doc : Document.t) : str :=
  match Document.pages doc !! 0%nat with
  | Some page => lower (Page.text_flags0 page)
  | None => []
  end.

(** The total word count across the pages: the sum, over the pages of
    the document, of the number of words of the page. *)
Definition total_word_count (doc : Document.t) : Z :=
  Z.of_nat
    (sum_list (map (λ page, length (Page.words page)) (Document.pages doc))).

Definition selector_spec {U : Unicode} (doc : Document.t) : Kind.t :=
  if Document.page_count doc =? 0 then Kind.Heuristic
  else if 5 <? Z.of_nat (length (Document.get_toc doc)) then Kind.TOC
  else if contains (lit "application form") (first_page_lowercase_text doc)
          || contains (lit "grant of") (first_page_lowercase_text doc)
  then Kind.Form
  else if (Document.page_count doc <=? 2) && (total_word_count doc <? 800)
  then Kind.VisualLayout
  else Kind.Heuristic.

(** ** Documents of the scenarios *)

(** The document with no page. *)
Definition empty_document : Document.t :=
  {| Document.pages := []; Document.get_toc := [] |}.


(** Scenario B: a bold block of size 18, "3.2 Methodology", above a body
    paragraph of size 11, on a page 600 wide and 800 high. *)
Definition span_of (text : string) (size : float) (font : string) : Span.t :=
  {| Span.text := lit text; Span.size := size; Span.font := lit font |}.

Definition text_block (top bottom : float) (lines : list (list Span.t))
  : Block.t :=
  {| Block.type := 0;
     Block.bbox := {| x0 := 100; y0 := top; x1 := 500; y1 := bottom |};
     Block.lines := map (λ spans, {| Line.spans := spans |}) lines |}.

Definition page_of (blocks : list Block.t) (words : nat) : Page.t :=
  {| Page.rect_width := 600; Page.rect_height := 800;
     Page.blocks := blocks; Page.blocks_flags0 := blocks;
     Page.text_flags0 := lit "plain text of the page";
     Page.words := repeat (lit "word") words |}.

Definition heading_span : Span.t := span_of "3.2  Methodology" 18 "Arial-Bold".

Definition heading_block : Block.t := text_block 100 120 [[heading_span]].

Definition body_block (size : float) : Block.t :=
  text_block 150 400
    [[span_of "A paragraph of body text, long enough to set the body size."
        size "Arial"]].





(** A block whose first line has no span and whose second line has text,
    in the header band of the page and in the body of the page. *)
Definition hollow_block (top bottom : float) : Block.t :=
  text_block top bottom [[]; [span_of "x" 10 "Arial"]].

Definition hollow_header_document : Document.t :=
  {| Document.pages := [page_of [hollow_block 10 30] 1];
     Document.get_toc := [] |}.

Definition hollow_body_document : Document.t :=
  {| Document.pages := [page_of [hollow_block 100 120] 1];
     Document.get_toc := [] |}.

(** A table of contents with one entry that holds two numbered
    sub-headings. *)
Definition nested_entry : Z * str * Z := (1, lit "1.1 Intro 1.2 Background", 0).



(** A block the heuristic scan cannot score: a text block with lines, the
    first of them without a span, with a cleaned text that is not empty,
    and not in the margins of the page. *)
Definition hollow {U : Unicode} (page_height : float) (b : Block.t) : Prop :=
  Block.type b = 0 ∧
  (∃ l ls, Block.lines b = l :: ls ∧ Line.spans l = []) ∧
  block_text b ≠ [] ∧
  Qltb (y0 (Block.bbox b)) 50 = false ∧
  Qltb (page_height - 50) (y1 (Block.bbox b)) = false.

(** A block whose first line, if it is a text block with lines, has a
    span. *)
Definition sound (b : Block.t) : Prop :=
  Block.type b = 0 →
  ∀ l ls, Block.lines b = l :: ls → Line.spans l ≠ [].

(** A block the visual layout scan cannot score: a text block with lines,
    the first of them without a span, with a cleaned text of at least 4
    characters. *)
Definition visual_hollow {U : Unicode} (b : Block.t) : Prop :=
  Block.type b = 0 ∧
  (∃ l ls, Block.lines b = l :: ls ∧ Line.spans l = []) ∧
  4 ≤ Z.of_nat (length (block_text b)).

(** A text that [strip] leaves alone. *)
Definition stripped {U : Unicode} (s : str) : Prop := strip s = s.

(** The candidates of a page lie outside its margins. *)
Definition outside_margins (page : Page.t) (bbox : BBox) : Prop :=
  Qltb (y0 bbox) 50 = false ∧
  Qltb (Page.rect_height page - 50) (y1 bbox) = false.

(** Group 1 has been captured. *)
Definition captured (g : Re.caps) : Prop := Re.group g 1 ≠ None.

(** A continuation of the matcher that succeeds only with group 1
    captured, and one that keeps it once captured. *)
Definition capturing (k : Re.cont) : Prop :=
  ∀ p s g st, k p s g = Some st → captured (snd st).

Definition keeping (k : Re.cont) : Prop :=
  ∀ p s g st, captured g → k p s g = Some st → captured (snd st).

(** ** Further sample data *)

(** An outline with a jump from H1 to H3. *)
Definition outline_item (level : string) (text : string) (page : Z)
  : OutlineItem.t :=
  {| OutlineItem.level := lit level; OutlineItem.text := lit text;
     OutlineItem.page := page |}.

Definition jumping_outline : list OutlineItem.t :=
  [outline_item "H1" "Title" 1; outline_item "H3" "Detail" 1;
   outline_item "H3" "More" 2].

(** The document of scenario B: the numbered heading above a paragraph,
    with enough words for the heuristic strategy. *)
Definition heading_document : Document.t :=
  {| Document.pages := [page_of [heading_block; body_block 11] 900];
     Document.get_toc := [] |}.

Definition heading_candidate : Heading.t :=
  {| Heading.text := lit "3.2 Methodology"; Heading.page := 0;
     Heading.style := (18, true); Heading.bbox := Block.bbox heading_block |}.

Definition heading_result : Extraction.t :=
  {| Extraction.title := lit "3.2 Methodology";
     Extraction.outline := [outline_item "H2" "3.2 Methodology" 1] |}.

(** ** Properties *)

(** *** White space *)

Section WhiteSpace.
Context {U : Unicode}.

Lemma lstrip_solid s : starts_solid (lstrip s).
Proof.
  induction s as [|c s IH]; simpl; [done|].
  destruct (isspace c) eqn:E; [done|]. simpl. done.
Qed.

Lemma lstrip_length s : (length (lstrip s) <= length s)%nat.
Proof.
  induction s as [|c s IH]; simpl; [lia|].
  destruct (isspace c); simpl; lia.
Qed.

Lemma lstrip_split s :
  ∃ w, s = w ++ lstrip s ∧ Forall (λ c, isspace c = true) w.
Proof.
  induction s as [|c s (w & Hs & Hw)]; simpl.
  - by exists [].
  - destruct (isspace c) eqn:E.
    + exists (c :: w). split; [simpl; by rewrite <- Hs | by constructor].
    + by exists [].
Qed.

Lemma lstrip_id s : starts_solid s → lstrip s = s.
Proof. destruct s as [|c s]; simpl; [done|]. by intros ->. Qed.

Lemma collapse_in_run s : collapse_from true s = collapse (lstrip s).
Proof.
  induction s as [|c s IH]; simpl; [done|].
  destruct (isspace c) eqn:E; [done|].
  unfold collapse. simpl. by rewrite E.
Qed.

Lemma collapse_space c s :
  isspace c = true → collapse (c :: s) = 32%N :: collapse (lstrip s).
Proof. intros E. unfold collapse at 1. simpl. by rewrite E, collapse_in_run. Qed.

Lemma collapse_solid c s :
  isspace c = false → collapse (c :: s) = c :: collapse s.
Proof. intros E. unfold collapse. simpl. by rewrite E. Qed.
End WhiteSpace.

(** *** The pattern [\s+] *)

Section WhitespaceRun.
Context {U : Unicode}.

Lemma rep_loop_more step k fuel prev s g :
  Re.rep_loop step k (S fuel) 0 prev s g =
  match step prev s g
          (λ p' s' g',
            if (length s' <? length s)%nat
            then Re.rep_loop step k fuel 0 p' s' g' else None) with
  | Some st => Some st
  | None => k prev s g
  end.
Proof. reflexivity. Qed.

Lemma rep_loop_need step k fuel need prev s g :
  Re.rep_loop step k (S fuel) (S need) prev s g =
  step prev s g (λ p' s' g', Re.rep_loop step k fuel need p' s' g').
Proof. reflexivity. Qed.

Lemma m_cls c prev x s g k :
  Re.m (Re.Cls c) prev (x :: s) g k =
  if Re.cls_match c x then k (Some x) s g else None.
Proof. reflexivity. Qed.

Lemma m_cls_nil c prev g k : Re.m (Re.Cls c) prev [] g k = None.
Proof. reflexivity. Qed.

Lemma m_rep min r prev s g k :
  Re.m (Re.Rep min r) prev s g k =
  Re.rep_loop (Re.m r) k (S (min + length s)) min prev s g.
Proof. reflexivity. Qed.

Lemma rep_space_greedy w : ∀ fuel prev rest g k st,
  Forall (λ c, isspace c = true) w → starts_solid rest →
  (length w < fuel)%nat →
  k (last_of prev w) rest g = Some st →
  Re.rep_loop (Re.m (Re.Cls Re.Space)) k fuel 0 prev (w ++ rest) g = Some st.
Proof.
  induction w as [|c w IH]; intros fuel prev rest g k st Hw Hrest Hfuel Hk.
  - destruct fuel as [|fuel]; [simpl in Hfuel; lia|].
    rewrite rep_loop_more. simpl app.
    destruct rest as [|x rest]; [by rewrite m_cls_nil|].
    rewrite m_cls. simpl in Hrest. simpl Re.cls_match. by rewrite Hrest.
  - destruct fuel as [|fuel]; [simpl in Hfuel; lia|].
    inversion Hw as [|? ? Hc Hw']; subst.
    rewrite rep_loop_more. simpl app. rewrite m_cls. simpl Re.cls_match.
    rewrite Hc.
    assert ((length (w ++ rest) <? length (c :: w ++ rest))%nat = true) as ->
      by (apply Nat.ltb_lt; simpl; lia).
    rewrite (IH fuel (Some c) rest g k st); [done|done|done| |].
    + simpl in Hfuel. lia.
    + revert Hk. unfold last_of. destruct w as [|x w]; [done|].
      change (last (c :: x :: w)) with (last (x :: w)).
      destruct (last (x :: w)) eqn:E; [done|]. by apply last_None in E.
Qed.

Lemma whitespace_run_match c s prev g k st :
  isspace c = true →
  k (last_of (Some c) (take (length s - length (lstrip s)) s)) (lstrip s) g
    = Some st →
  Re.m whitespace_run prev (c :: s) g k = Some st.
Proof.
  intros Hc Hk. destruct (lstrip_split s) as (w & Hs & Hw).
  pose proof (lstrip_solid s) as Hsolid.
  remember (lstrip s) as rest eqn:Hrest. clear Hrest. subst s.
  rewrite length_app in Hk.
  replace (length w + length rest - length rest)%nat with (length w) in Hk
    by lia.
  rewrite take_app_length in Hk.
  unfold whitespace_run. rewrite m_rep, rep_loop_need, m_cls.
  simpl Re.cls_match. rewrite Hc.
  apply rep_space_greedy; [done|done| |done].
  simpl. rewrite length_app. lia.
Qed.

Lemma whitespace_run_no_match s prev g k :
  starts_solid s → Re.m whitespace_run prev s g k = None.
Proof.
  intros Hs. unfold whitespace_run. rewrite m_rep, rep_loop_need.
  destruct s as [|c s]; [done|]. rewrite m_cls. simpl in Hs.
  simpl Re.cls_match. by rewrite Hs.
Qed.

Lemma find_whitespace_run s : ∀ skip adv prev,
  match Re.find whitespace_run adv prev skip s with
  | None => collapse s = s
  | Some mt =>
      (length (snd (Re.after mt)) < length s)%nat ∧
      rev skip ++ collapse s
        = Re.skipped mt ++ 32%N :: collapse (snd (Re.after mt))
  end.
Proof.
  induction s as [|c s IH]; intros skip adv prev.
  - cbn [Re.find]. by rewrite whitespace_run_no_match.
  - destruct (isspace c) eqn:Hc.
    + cbn [Re.find].
      erewrite whitespace_run_match; [|done|].
      2:{ unfold Re.accept.
          assert ((length (lstrip s) =? length (c :: s))%nat = false) as ->.
          { apply Nat.eqb_neq. pose proof (lstrip_length s). simpl. lia. }
          by rewrite andb_false_r. }
      simpl. split; [pose proof (lstrip_length s); lia|].
      by rewrite collapse_space.
    + cbn [Re.find]. rewrite whitespace_run_no_match; [|done].
      specialize (IH (c :: skip) false (Some c)).
      destruct (Re.find whitespace_run false (Some c) (c :: skip) s) as [mt|].
      * destruct IH as (Hlen & Heq). split; [simpl; lia|].
        rewrite collapse_solid; [|done]. rewrite <- Heq. simpl.
        by rewrite <- app_assoc.
      * rewrite collapse_solid; [|done]. by rewrite IH.
Qed.

Lemma sub_loop_whitespace_run fuel : ∀ s adv prev,
  (length s < fuel)%nat →
  Re.sub_loop fuel whitespace_run (lit " ") adv prev s = collapse s.
Proof.
  induction fuel as [|fuel IH]; intros s adv prev Hfuel; [lia|].
  simpl. pose proof (find_whitespace_run s [] adv prev) as Hfind.
  destruct (Re.find whitespace_run adv prev [] s) as [mt|]; [|done].
  destruct Hfind as (Hlen & Heq). simpl in Heq. rewrite Heq.
  rewrite IH; [done|lia].
Qed.

(** [re.sub(r'\s+', ' ', s)] turns every run of white space into one
    space. *)
Lemma sub_whitespace_run s :
  Re.sub whitespace_run (lit " ") s = collapse s.
Proof. apply sub_loop_whitespace_run. lia. Qed.
End WhitespaceRun.

(** *** [clean_text] *)

Section Strip.
Context {U : Unicode}.

Lemma rstrip_split s :
  ∃ w, s = rstrip s ++ w ∧ Forall (λ c, isspace c = true) w.
Proof.
  induction s as [|c s (w & Hs & Hw)]; [by exists []|].
  simpl. destruct (rstrip s) as [|x r].
  - simpl in Hs. subst w. destruct (isspace c) eqn:E.
    + exists (c :: s). by split; [|constructor].
    + by exists s.
  - exists w. split; [|done]. rewrite Hs at 1. done.
Qed.

Lemma rstrip_ends_solid s : ends_solid (rstrip s).
Proof.
  induction s as [|c s IH]; [done|]. simpl.
  destruct (rstrip s) as [|x r].
  - destruct (isspace c) eqn:E; [done|]. unfold ends_solid. by simpl.
  - exact IH.
Qed.

Lemma rstrip_id s : ends_solid s → rstrip s = s.
Proof.
  induction s as [|c s IH]; [done|]. intros Hs. simpl.
  destruct s as [|x s].
  - unfold ends_solid in Hs. simpl in Hs. simpl. by rewrite Hs.
  - rewrite IH; [done|]. exact Hs.
Qed.

Lemma rstrip_starts_solid s : starts_solid s → starts_solid (rstrip s).
Proof.
  destruct s as [|c s]; [done|]. simpl. intros Hc.
  destruct (rstrip s); [by rewrite Hc|done].
Qed.

Lemma strip_starts_solid s : starts_solid (strip s).
Proof. apply rstrip_starts_solid, lstrip_solid. Qed.

Lemma strip_ends_solid s : ends_solid (strip s).
Proof. apply rstrip_ends_solid. Qed.

Lemma strip_id s : starts_solid s → ends_solid s → strip s = s.
Proof.
  intros Hs He. unfold strip. rewrite lstrip_id; [|done]. by apply rstrip_id.
Qed.

Lemma collapse_from_tidy s : ∀ b, tidy b (collapse_from b s).
Proof.
  induction s as [|c s IH]; intros b; [done|]. simpl.
  destruct (isspace c) eqn:E.
  - destruct b; [apply IH|]. simpl. split; [done|]. split; [done|apply IH].
  - simpl. rewrite E. apply IH.
Qed.

Lemma tidy_collapse_from s : ∀ b, tidy b s → collapse_from b s = s.
Proof.
  induction s as [|c s IH]; intros b; [done|]. simpl.
  destruct (isspace c) eqn:E.
  - intros (-> & -> & Hs). by rewrite IH.
  - intros Hs. by rewrite IH.
Qed.

Lemma collapse_idempotent s : collapse (collapse s) = collapse s.
Proof. apply tidy_collapse_from, collapse_from_tidy. Qed.

Lemma collapse_starts_solid s : starts_solid s → starts_solid (collapse s).
Proof.
  destruct s as [|c s]; [done|]. simpl. intros Hc.
  unfold collapse. simpl. rewrite Hc. simpl. done.
Qed.

Lemma collapse_from_snoc s c : ∀ b,
  isspace c = false → collapse_from b (s ++ [c]) = collapse_from b s ++ [c].
Proof.
  induction s as [|x s IH]; intros b Hc; simpl.
  - by rewrite Hc.
  - destruct (isspace x); [destruct b|]; by rewrite IH.
Qed.

Lemma collapse_ends_solid s : ends_solid s → ends_solid (collapse s).
Proof.
  unfold ends_solid. destruct (last s) as [c|] eqn:E.
  - apply last_Some in E as [s' ->]. intros Hc.
    unfold collapse. rewrite collapse_from_snoc; [|done].
    by rewrite last_snoc.
  - apply last_None in E as ->. done.
Qed.

Lemma replace_char_absent c r t : c ∉ t → replace_char c r t = t.
Proof.
  unfold replace_char. induction t as [|x t IH]; [done|].
  intros Hc. apply not_elem_of_cons in Hc as [Hx Ht]. simpl.
  destruct (N.eqb_spec x c) as [->|_]; [done|]. simpl. by rewrite IH.
Qed.
End Strip.

Section CleanText.
Context {U : Unicode} {L : NFKC_laws U}.

Lemma normal_nil : normal [].
Proof. reflexivity. Qed.

Lemma normal_lstrip s : normal s → normal (lstrip s).
Proof.
  induction s as [|c s IH]; [done|]. simpl.
  destruct (isspace c) eqn:E; [|done].
  intros Hs. apply IH. by apply (normal_split [] c s).
Qed.

Lemma normal_rstrip s : normal s → normal (rstrip s).
Proof.
  destruct (rstrip_split s) as (w & Hs & Hw). intros Hn.
  destruct w as [|c w].
  - rewrite app_nil_r in Hs. by rewrite <- Hs.
  - inversion Hw; subst. rewrite Hs in Hn.
    by apply (normal_split (rstrip s) c w).
Qed.

Lemma normal_strip s : normal s → normal (strip s).
Proof. intros Hs. by apply normal_rstrip, normal_lstrip. Qed.

Lemma normal_collapse_prefix n : ∀ s pre,
  (length s <= n)%nat → normal (pre ++ s) → normal (pre ++ collapse s).
Proof.
  induction n as [|n IH]; intros s pre Hn Hs.
  - destruct s; [done|simpl in Hn; lia].
  - destruct s as [|c s]; [done|]. simpl in Hn.
    destruct (isspace c) eqn:E.
    + rewrite collapse_space; [|done].
      apply normal_split in Hs as [Hpre Hs]; [|done].
      apply normal_join; [done|].
      apply (IH _ []); [|by apply normal_lstrip].
      pose proof (lstrip_length s). lia.
    + rewrite collapse_solid; [|done].
      rewrite (cons_middle c pre), app_assoc.
      apply IH; [lia|]. by rewrite <- app_assoc.
Qed.

Lemma normal_collapse s : normal s → normal (collapse s).
Proof. intros Hs. by apply (normal_collapse_prefix (length s) s []). Qed.

(** On a text that is not empty, [clean_text] normalises, strips and
    collapses the runs of white space; the two replacements find
    nothing to replace in a normal form. *)
Lemma clean_text_unfold s :
  s ≠ [] → clean_text s = collapse (strip (normalize_NFKC s)).
Proof.
  intros Hs. destruct s as [|c s]; [done|]. unfold clean_text.
  destruct (normal_no_ligature _ (NFKC_normal (c :: s))) as [Hfi Hfl].
  rewrite (replace_char_absent ligature_fi); [|done].
  rewrite (replace_char_absent ligature_fl); [|done].
  apply sub_whitespace_run.
Qed.

Lemma clean_text_fixed r :
  normal r → starts_solid r → ends_solid r → tidy false r →
  clean_text r = r.
Proof.
  intros Hn Hs He Ht. destruct r as [|c r]; [done|].
  rewrite clean_text_unfold; [|done].
  rewrite Hn, strip_id; [|done|done]. by apply tidy_collapse_from.
Qed.
End CleanText.

(** C9. [clean_text] is idempotent: cleaning a cleaned text changes
    nothing, for every string and every Unicode database whose NFKC has
    white space as a boundary. *)
Theorem clean_text_idempotent {U : Unicode} {L : NFKC_laws U} (s : str) :
  clean_text (clean_text s) = clean_text s.
Proof.
  destruct s as [|c s]; [done|].
  rewrite (clean_text_unfold (c :: s)); [|done].
  apply clean_text_fixed.
  - apply normal_collapse, normal_strip, NFKC_normal.
  - apply collapse_starts_solid, strip_starts_solid.
  - apply collapse_ends_solid, strip_ends_solid.
  - apply collapse_from_tidy.
Qed.

(** The small database obeys the laws of NFKC. *)
Section LatinLaws.
Lemma Latin_compat_ascii c : is_ascii c = true → Latin.compat c = [c].
Proof.
  unfold is_ascii, Latin.compat. intros Hc%N.ltb_lt.
  destruct (N.eqb_spec c 64257); [lia|].
  destruct (N.eqb_spec c 64258); [lia|].
  destruct (N.eqb_spec c 160); [lia|done].
Qed.

Lemma Latin_NFKC_fixed s : Forall Latin.fixed s → Latin.NFKC s = s.
Proof.
  unfold Latin.NFKC. induction 1 as [|c s Hc Hs IH]; [done|].
  simpl. by rewrite Hc, IH.
Qed.

Lemma Latin_NFKC_ascii s : forallb is_ascii s = true → Latin.NFKC s = s.
Proof.
  intros Hs. apply Latin_NFKC_fixed. apply Forall_forall.
  intros c Hc. apply Latin_compat_ascii.
  rewrite forallb_forall in Hs. apply Hs. by apply list_elem_of_In.
Qed.

Lemma Latin_normalize s : normalize_NFKC (U:=Latin.unicode) s = Latin.NFKC s.
Proof.
  unfold normalize_NFKC. simpl.
  destruct (forallb is_ascii s) eqn:E; [|done]. by rewrite Latin_NFKC_ascii.
Qed.

Lemma Latin_normal s : normal (U:=Latin.unicode) s ↔ Forall Latin.fixed s.
Proof.
  unfold normal. rewrite Latin_normalize. split; [|apply Latin_NFKC_fixed].
  unfold Latin.NFKC. induction s as [|c s IH]; [done|]. simpl. intros H.
  assert (Latin.compat c = [c]) as Hc.
  { revert H. unfold Latin.compat.
    destruct (N.eqb_spec c 64257) as [->|_]; [done|].
    destruct (N.eqb_spec c 64258) as [->|_]; [done|].
    by destruct (N.eqb_spec c 160) as [->|_]. }
  rewrite Hc in H. injection H as H. constructor; [done|by apply IH].
Qed.

Lemma Latin_compat_fixed c : Forall Latin.fixed (Latin.compat c).
Proof.
  unfold Latin.compat.
  destruct (N.eqb_spec c 64257) as [->|H1]; [by repeat constructor|].
  destruct (N.eqb_spec c 64258) as [->|H2]; [by repeat constructor|].
  destruct (N.eqb_spec c 160) as [->|H3]; [by repeat constructor|].
  constructor; [|done]. unfold Latin.fixed, Latin.compat.
  destruct (N.eqb_spec c 64257); [done|].
  destruct (N.eqb_spec c 64258); [done|].
  by destruct (N.eqb_spec c 160).
Qed.

Lemma Latin_NFKC_laws : NFKC_laws Latin.unicode.
Proof.
  split.
  - intros s. apply Latin_normal. rewrite Latin_normalize.
    unfold Latin.NFKC. induction s as [|c s IH]; [done|]. simpl.
    apply Forall_app. split; [apply Latin_compat_fixed|done].
  - intros s Hs%Latin_normal. rewrite Forall_forall in Hs.
    split; intros Hin%Hs; discriminate Hin.
  - intros a w b _ [Ha Hb]%Latin_normal%Forall_app.
    inversion Hb; subst. by split; apply Latin_normal.
  - intros a b Ha%Latin_normal Hb%Latin_normal. apply Latin_normal.
    apply Forall_app. split; [done|]. by constructor.
Qed.
End LatinLaws.

(** C9, witness: the text "ﬁ", two spaces, a no-break space, "x", a
    trailing line feed. *)
Lemma clean_text_idempotent_witness :
  clean_text (U:=Latin.unicode)
    (clean_text (U:=Latin.unicode) [64257; 32; 32; 160; 120; 10]%N)
  = clean_text (U:=Latin.unicode) [64257; 32; 32; 160; 120; 10]%N.
Proof. apply (clean_text_idempotent (L:=Latin_NFKC_laws)). Defined.

(** *** The structurer *)

Section Structurer.
Context {U : Unicode}.

Lemma level_num_leveled n item :
  leveled n item → BaseStrategy.level_num item = Ok n.
Proof.
  intros [Hn Hl]. unfold BaseStrategy.level_num. rewrite Hl.
  assert (n = 1 ∨ n = 2 ∨ n = 3) as [->|[->| ->]] by lia; reflexivity.
Qed.

Lemma index_nonneg {A} `{EqDecision A} (x : A) l rank :
  BaseStrategy.index x l = Some rank → 0 ≤ rank.
Proof.
  revert rank. induction l as [|y l IH]; intros rank; simpl; [done|].
  destruct (decide (y = x)); [intros [= <-]; lia|].
  destruct (BaseStrategy.index x l) as [r|]; [|done].
  intros [= <-]. specialize (IH r eq_refl). lia.
Qed.

Lemma assign_level_leveled styles h :
  ∃ n, leveled n (BaseStrategy.assign_level styles h).
Proof.
  unfold BaseStrategy.assign_level, leveled. simpl.
  destruct (Re.match_ BaseStrategy.numbering (Heading.text h)) as [mt|].
  - eexists. split; [|reflexivity]. unfold count_char. lia.
  - destruct (BaseStrategy.index (Heading.style h) styles) as [rank|] eqn:E.
    + apply index_nonneg in E. eexists. split; [|reflexivity]. lia.
    + exists 3. split; [lia|reflexivity].
Qed.

Lemma unique_spec outline : ∀ seen,
  NoDup (map identifier (BaseStrategy.unique seen outline)) ∧
  ∀ item, item ∈ BaseStrategy.unique seen outline →
          (identifier item ∉ seen) ∧ item ∈ outline.
Proof.
  induction outline as [|x outline IH]; intros seen; simpl.
  - split; [constructor|]. intros item Hin. by apply elem_of_nil in Hin.
  - destruct (decide ((OutlineItem.text x, OutlineItem.page x) ∈ seen))
      as [Hseen|Hnew].
    + destruct (IH seen) as [Hnd Hin]. split; [done|].
      intros item Hitem. destruct (Hin item Hitem). split; [done|].
      by apply elem_of_cons; right.
    + destruct (IH ({[(OutlineItem.text x, OutlineItem.page x)]} ∪ seen))
        as [Hnd Hin].
      split.
      * simpl. constructor; [|done]. intros Hx.
        apply list_elem_of_fmap in Hx as (y & Hy & Hyin).
        destruct (Hin y Hyin) as [Hfresh _]. apply Hfresh.
        rewrite <- Hy. apply elem_of_union_l, elem_of_singleton. done.
      * intros item [->|Hitem]%elem_of_cons.
        -- split; [done|by apply elem_of_cons; left].
        -- destruct (Hin item Hitem) as [Hfresh ?].
           split; [|by apply elem_of_cons; right].
           intros Hs. apply Hfresh. by apply elem_of_union_r.
Qed.

Lemma kept_refl n item : leveled n item → kept item item.
Proof. intros Hn. split; [done|]. exists n, n. split; [done|]. split; [done|lia]. Qed.

Lemma kept_identifiers outline final :
  Forall2 kept outline final → map identifier final = map identifier outline.
Proof.
  induction 1 as [|x y outline final [Hid _] _ IH]; [done|].
  simpl. by rewrite Hid, IH.
Qed.

Lemma post_process_loop_spec rest : ∀ last n,
  leveled n last →
  Forall (λ item, ∃ k, leveled k item) rest →
  ∃ final,
    BaseStrategy.post_process_loop last rest = Ok final ∧
    Forall2 kept rest final ∧
    stepwise n final.
Proof.
  induction rest as [|cur rest IH]; intros last n Hlast Hrest.
  - exists []. by repeat split.
  - inversion Hrest as [|? ? [k Hk] Hrest']; subst.
    cbn [BaseStrategy.post_process_loop].
    rewrite (level_num_leveled n last), (level_num_leveled k cur); [|done..].
    cbn [mbind result_bind bind].
    destruct (n + 1 <? k) eqn:E.
    + apply Z.ltb_lt in E.
      assert (leveled (n + 1)
                (OutlineItem.set_level (H (n + 1)) cur)) as Hcur.
      { split; [|done]. destruct Hlast, Hk. lia. }
      destruct (IH _ _ Hcur Hrest') as (final & -> & Hkept & Hstep).
      eexists. split; [reflexivity|]. split.
      * constructor; [|done]. split; [done|].
        exists k, (n + 1). split; [done|]. split; [done|].
        destruct Hlast as [Hn _]. lia.
      * exists (n + 1). split; [done|]. split; [lia|done].
    + apply Z.ltb_ge in E.
      destruct (IH _ _ Hk Hrest') as (final & -> & Hkept & Hstep).
      eexists. split; [reflexivity|]. split.
      * constructor; [|done]. by apply kept_refl with (n := k).
      * exists k. split; [done|]. split; [lia|done].
Qed.

Lemma post_process_outline_spec outline :
  Forall (λ item, ∃ k, leveled k item) outline →
  ∃ final,
    BaseStrategy._post_process_outline outline = Ok final ∧
    Forall2 kept outline final ∧
    stepwise 3 final.
Proof.
  destruct outline as [|first rest]; intros Hall.
  { exists []. by repeat split. }
  inversion Hall as [|? ? [n Hn] Hrest]; subst.
  destruct (post_process_loop_spec rest first n Hn Hrest)
    as (final & Hloop & Hkept & Hstep).
  exists (first :: final). simpl. rewrite Hloop. split; [done|].
  split; [constructor; [by apply kept_refl with (n := n)|done]|].
  exists n. split; [done|]. split; [destruct Hn; lia|done].
Qed.

Lemma stepwise_lookup outline : ∀ n i a b,
  stepwise n outline →
  outline !! i = Some a → outline !! S i = Some b →
  ∃ la lb, BaseStrategy.level_num a = Ok la ∧
           BaseStrategy.level_num b = Ok lb ∧ lb ≤ la + 1.
Proof.
  induction outline as [|x outline IH]; intros n i a b Hstep Ha Hb; [done|].
  destruct Hstep as (k & Hk & _ & Hstep).
  destruct i as [|i].
  - simpl in Ha. injection Ha as ->.
    destruct outline as [|y outline]; [done|].
    simpl in Hb. injection Hb as ->.
    destruct Hstep as (k' & Hk' & Hle & _).
    exists k, k'. split; [by apply level_num_leveled|].
    split; [by apply level_num_leveled|done].
  - by apply (IH k i a b).
Qed.

(** The three steps of [_structure_headings] on a list that is not
    empty. *)
Lemma structure_headings_steps headings :
  headings ≠ [] →
  let sorted := sort_by BaseStrategy.key_lt headings in
  let styles := BaseStrategy.heading_styles sorted in
  let outline := map (BaseStrategy.assign_level styles) sorted in
  ∃ final,
    BaseStrategy._structure_headings headings = Ok final ∧
    Forall2 kept (BaseStrategy.unique ∅ outline) final ∧
    stepwise 3 final.
Proof.
  intros Hne sorted styles outline.
  destruct (unique_spec outline ∅) as [Hnd Hin].
  destruct (post_process_outline_spec (BaseStrategy.unique ∅ outline))
    as (final & Hfinal & Hkept & Hstep).
  { apply Forall_forall. intros item Hitem.
    destruct (Hin item Hitem) as [_ Hitem'].
    apply list_elem_of_fmap in Hitem' as (h & -> & _).
    apply assign_level_leveled. }
  exists final. split; [|done]. by destruct headings.
Qed.

Lemma structure_headings_spec headings :
  ∃ outline,
    BaseStrategy._structure_headings headings = Ok outline ∧
    NoDup (map identifier outline) ∧ stepwise 3 outline.
Proof.
  destruct headings as [|h0 hs].
  { exists []. split; [done|]. split; [constructor|done]. }
  destruct (structure_headings_steps (h0 :: hs)) as (final & Hok & Hkept & Hstep);
    [done|].
  exists final. split; [done|]. split; [|done].
  rewrite (kept_identifiers _ _ Hkept). apply unique_spec.
Qed.
End Structurer.

(** C1. For every list of heading candidates the structurer returns an
    outline (it raises nothing) in which no two items have the same
    (text, page) pair and in which the numeric level of every item after
    the first is at most the numeric level of the item before it plus 1. *)
Theorem structure_headings_invariant {U : Unicode} (headings : list Heading.t) :
  ∃ outline,
    BaseStrategy._structure_headings headings = Ok outline ∧
    NoDup (map identifier outline) ∧
    ∀ i a b, outline !! i = Some a → outline !! S i = Some b →
      ∃ la lb, BaseStrategy.level_num a = Ok la ∧
               BaseStrategy.level_num b = Ok lb ∧ lb ≤ la + 1.
Proof.
  destruct (structure_headings_spec headings) as (outline & Hok & Hnd & Hstep).
  exists outline. split; [done|]. split; [done|].
  intros i a b. by apply stepwise_lookup with (n := 3).
Qed.

(** *** Scenario B: a numbered heading under the heuristic strategy *)

Section NumberedHeading.
Context {U : Unicode}.

Lemma insert_by_perm {A} (lt : A → A → bool) x l :
  insert_by lt x l ≡ₚ x :: l.
Proof.
  induction l as [|y l IH]; simpl; [done|].
  destruct (lt y x); [|done]. rewrite IH. apply Permutation_swap.
Qed.

Lemma sort_by_perm {A} (lt : A → A → bool) l : sort_by lt l ≡ₚ l.
Proof.
  induction l as [|x l IH]; simpl; [done|].
  unfold sort_by in *. simpl. by rewrite insert_by_perm, IH.
Qed.

Lemma unique_covers outline : ∀ seen x,
  x ∈ outline → identifier x ∉ seen →
  ∃ y, y ∈ BaseStrategy.unique seen outline ∧ identifier y = identifier x.
Proof.
  induction outline as [|a outline IH]; intros seen x Hx Hfresh.
  { by apply elem_of_nil in Hx. }
  simpl. fold (identifier a).
  destruct (decide (identifier a ∈ seen)) as [Ha|Ha].
  - apply elem_of_cons in Hx as [->|Hx]; [done|]. by apply IH.
  - destruct (decide (identifier a = identifier x)) as [Heq|Hne].
    + exists a. split; [by apply elem_of_cons; left|done].
    + apply elem_of_cons in Hx as [->|Hx]; [done|].
      destruct (IH ({[identifier a]} ∪ seen) x Hx) as (y & Hy & Hid).
      * intros [Hin%elem_of_singleton|Hin]%elem_of_union; [|done].
        by apply Hne.
      * exists y. split; [by apply elem_of_cons; right|done].
Qed.



End NumberedHeading.



(** *** Scenario C: a call to action under the visual layout strategy *)



(** *** The table of contents *)

(** C3, on the code: an entry with the two numbered sub-headings
    "1.1 Intro" and "1.2 Background" yields four items, not two: before
    each sub-heading stands an item with the text of the group captured
    by the pattern of the split, ".1" and ".2". *)
Theorem process_toc_nested_entry {U : Unicode} :
  TOCStrategy._process_toc [nested_entry]
  = Ok [{| OutlineItem.level := lit "H1"; OutlineItem.text := lit ".1";
           OutlineItem.page := 1 |};
        {| OutlineItem.level := lit "H1"; OutlineItem.text := lit "1.1 Intro";
           OutlineItem.page := 1 |};
        {| OutlineItem.level := lit "H1"; OutlineItem.text := lit ".2";
           OutlineItem.page := 1 |};
        {| OutlineItem.level := lit "H1";
           OutlineItem.text := lit "1.2 Background";
           OutlineItem.page := 1 |}].
Proof. vm_compute. reflexivity. Qed.

(** *** The selector *)

(** The loop that adds up the words of the pages computes the total
    word count of the document. *)
Lemma total_words_sum (doc : Document.t) :
  PDFOutlineExtractor.total_words doc = total_word_count doc.
Proof.
  unfold PDFOutlineExtractor.total_words, total_word_count.
  assert (∀ pages n,
    fold_left (λ n p, n + Z.of_nat (length (Page.words p))) pages n
    = n + Z.of_nat (sum_list (map (λ page, length (Page.words page)) pages)))
    as Hfold.
  { induction pages as [|page pages IH]; intros n; simpl; [lia|].
    rewrite IH. lia. }
  by rewrite Hfold.
Qed.

(** C2. The strategy selector is a first-match-wins decision: no page,
    the heuristic strategy; else more than 5 entries in the table of
    contents, the TOC strategy; else "application form" or "grant of" in
    the lowercase plain text of the first page, the form strategy; else at
    most 2 pages and fewer than 800 words, the visual layout strategy;
    else the heuristic strategy. The strategy is built on the document. *)
Theorem get_strategy_first_match {U : Unicode} (doc : Document.t) :
  kind (PDFOutlineExtractor._get_strategy doc) = selector_spec doc ∧
  strategy_doc (PDFOutlineExtractor._get_strategy doc) = doc.
Proof.
  unfold PDFOutlineExtractor._get_strategy, selector_spec,
    first_page_lowercase_text, Document.page_count.
  rewrite total_words_sum.
  destruct (Document.pages doc) as [|page pages] eqn:Hpages; [done|].
  assert ((Z.of_nat (length (page :: pages)) =? 0) = false) as ->
    by (apply Z.eqb_neq; simpl; lia).
  cbn [lookup list_lookup].
  destruct (Document.get_toc doc) as [|entry toc]; cbn [nonempty andb];
    [change (5 <? Z.of_nat (length (@nil (Z * str * Z)))) with false|
     destruct (5 <? Z.of_nat (length (entry :: toc))); [done|]];
    (destruct (contains (lit "application form") _ || contains (lit "grant of") _);
     [done|]);
    by destruct ((_ <=? 2) && _).
Qed.

(** *** The title *)

(** C7. The title is extracted in the same way by every strategy that
    extracts one: for every document the TOC strategy and the heuristic
    strategy return the same string, and the form strategy returns the
    string of the heuristic strategy. *)
Theorem extract_title_same {U : Unicode} (doc : Document.t) :
  TOCStrategy._extract_title doc = HeuristicStrategy._extract_title doc ∧
  FormStrategy.extract doc =
    Ok {| Extraction.title := HeuristicStrategy._extract_title doc;
          Extraction.outline := [] |}.
Proof. split; reflexivity. Qed.

(** *** The document without pages *)

(** C8. For a document with zero pages the selector picks the heuristic
    strategy (with no font statistics and body size 10), title
    extraction returns the empty string, and the extraction returns the
    empty result: the title "" and the outline []. *)
Theorem zero_pages_empty_result {U : Unicode} (doc : Document.t) :
  Document.page_count doc = 0 →
  PDFOutlineExtractor._get_strategy doc = Strategy.Heuristic doc [] 10 ∧
  HeuristicStrategy._extract_title doc = [] ∧
  PDFOutlineExtractor.extract (PDFOutlineExtractor._get_strategy doc)
    = Ok {| Extraction.title := []; Extraction.outline := [] |}.
Proof.
  unfold Document.page_count. intros Hcount.
  assert (Document.pages doc = []) as Hpages
    by (destruct (Document.pages doc); [done|simpl in Hcount; lia]).
  unfold PDFOutlineExtractor._get_strategy, PDFOutlineExtractor.new_heuristic,
    HeuristicStrategy.init, HeuristicStrategy._analyze_font_stats,
    HeuristicStrategy._extract_title.
  rewrite Hpages. cbn [fold_left HeuristicStrategy._get_dominant_font_size].
  split; [done|]. split; [done|].
  cbn [PDFOutlineExtractor.extract].
  unfold HeuristicStrategy.extract, HeuristicStrategy._find_headings,
    HeuristicStrategy._extract_title.
  by rewrite Hpages.
Qed.

(** C8, witness: the document with no page and no table of contents. *)
Lemma zero_pages_empty_result_witness :
  PDFOutlineExtractor.extract (U:=Latin.unicode)
    (PDFOutlineExtractor._get_strategy (U:=Latin.unicode) empty_document)
  = Ok {| Extraction.title := []; Extraction.outline := [] |}.
Proof.
  apply (zero_pages_empty_result (U:=Latin.unicode) empty_document).
  reflexivity.
Defined.

(** *** The batch *)

Section Batch.
Context {U : Unicode}.



End Batch.






(** *** The first span of a block *)

Section FirstSpan.
Context {U : Unicode}.

Lemma scan_block_outcome body_size page_height page_num b :
  (∃ h, HeuristicStrategy.scan_block body_size page_height page_num b = Ok h)
  ∨ HeuristicStrategy.scan_block body_size page_height page_num b
    = Raise IndexError.
Proof.
  unfold HeuristicStrategy.scan_block.
  destruct (negb (Block.type b =? 0) || negb (nonempty (Block.lines b)));
    [left; by eexists|].
  destruct (negb (nonempty (block_text b))); [left; by eexists|].
  destruct (Qltb (y0 (Block.bbox b)) 50
            || Qltb (page_height - 50) (y1 (Block.bbox b)));
    [left; by eexists|].
  unfold first_span_of.
  destruct (Block.lines b) as [|l ls]; [by right|].
  destruct (Line.spans l) as [|span spans]; [by right|].
  cbn [mbind result_bind bind].
  match goal with |- context [if ?c then _ else _] => destruct c end;
    left; by eexists.
Qed.

Lemma scan_block_sound body_size page_height page_num b :
  sound b →
  ∃ h, HeuristicStrategy.scan_block body_size page_height page_num b = Ok h.
Proof.
  intros Hsound.
  destruct (scan_block_outcome body_size page_height page_num b)
    as [Hok|Hraise]; [done|].
  exfalso. revert Hraise. unfold HeuristicStrategy.scan_block.
  destruct (Block.type b =? 0) eqn:Htype; [|done].
  apply Z.eqb_eq in Htype.
  destruct (Block.lines b) as [|l ls] eqn:Hlines; [done|].
  cbn [negb nonempty orb].
  destruct (negb (nonempty (block_text b))); [done|].
  destruct (Qltb (y0 (Block.bbox b)) 50
            || Qltb (page_height - 50) (y1 (Block.bbox b))); [done|].
  unfold first_span_of. rewrite Hlines.
  destruct (Line.spans l) as [|span spans] eqn:Hspans.
  { by destruct (Hsound Htype l ls Hlines). }
  cbn [mbind result_bind bind].
  by match goal with |- context [if ?c then _ else _] => destruct c end.
Qed.

Lemma scan_block_hollow body_size page_height page_num b :
  hollow page_height b →
  HeuristicStrategy.scan_block body_size page_height page_num b
    = Raise IndexError.
Proof.
  intros (Htype & (l & ls & Hlines & Hspans) & Htext & Htop & Hbottom).
  unfold HeuristicStrategy.scan_block, first_span_of.
  rewrite Htype, Hlines, Hspans, Htop, Hbottom.
  cbn [Z.eqb negb nonempty orb].
  by destruct (block_text b).
Qed.

Lemma scan_blocks_outcome body_size page_height page_num blocks :
  (∃ hs, HeuristicStrategy.scan_blocks body_size page_height page_num blocks
         = Ok hs)
  ∨ HeuristicStrategy.scan_blocks body_size page_height page_num blocks
    = Raise IndexError.
Proof.
  induction blocks as [|b blocks IH]; [left; by eexists|].
  cbn [HeuristicStrategy.scan_blocks].
  destruct (scan_block_outcome body_size page_height page_num b)
    as [[h ->]| ->]; [|by right].
  cbn [mbind result_bind bind].
  destruct IH as [[hs ->]| ->]; [left; by eexists|by right].
Qed.

Lemma scan_blocks_sound body_size page_height page_num blocks :
  Forall sound blocks →
  ∃ hs, HeuristicStrategy.scan_blocks body_size page_height page_num blocks
        = Ok hs.
Proof.
  induction 1 as [|b blocks Hb _ [hs IH]]; [by eexists|].
  cbn [HeuristicStrategy.scan_blocks].
  destruct (scan_block_sound body_size page_height page_num b Hb) as [h ->].
  cbn [mbind result_bind bind]. rewrite IH. by eexists.
Qed.

Lemma scan_blocks_hollow body_size page_height page_num blocks b :
  b ∈ blocks → hollow page_height b →
  HeuristicStrategy.scan_blocks body_size page_height page_num blocks
    = Raise IndexError.
Proof.
  intros Hin Hb. induction blocks as [|b' blocks IH].
  { by apply elem_of_nil in Hin. }
  cbn [HeuristicStrategy.scan_blocks].
  apply elem_of_cons in Hin as [<-|Hin].
  - by rewrite scan_block_hollow.
  - destruct (scan_block_outcome body_size page_height page_num b')
      as [[h ->]| ->]; [|done].
    cbn [mbind result_bind bind]. by rewrite IH.
Qed.

Lemma scan_pages_sound body_size pages : ∀ page_num,
  Forall (λ page, Forall sound (Page.blocks page)) pages →
  ∃ hs, HeuristicStrategy.scan_pages body_size page_num pages = Ok hs.
Proof.
  induction pages as [|page pages IH]; intros page_num Hall; [by eexists|].
  inversion Hall as [|? ? Hpage Hpages]; subst.
  cbn [HeuristicStrategy.scan_pages].
  destruct (scan_blocks_sound body_size (Page.rect_height page) page_num
              (Page.blocks page) Hpage) as [here ->].
  cbn [mbind result_bind bind].
  destruct (IH (page_num + 1) Hpages) as [hs ->]. by eexists.
Qed.

Lemma scan_pages_hollow body_size pages page b : ∀ page_num,
  page ∈ pages → b ∈ Page.blocks page → hollow (Page.rect_height page) b →
  HeuristicStrategy.scan_pages body_size page_num pages = Raise IndexError.
Proof.
  induction pages as [|page' pages IH]; intros page_num Hpage Hb Hhollow.
  { by apply elem_of_nil in Hpage. }
  cbn [HeuristicStrategy.scan_pages].
  apply elem_of_cons in Hpage as [<-|Hpage].
  - by rewrite (scan_blocks_hollow _ _ _ _ b).
  - destruct (scan_blocks_outcome body_size (Page.rect_height page')
                page_num (Page.blocks page')) as [[here ->]| ->]; [|done].
    cbn [mbind result_bind bind]. by rewrite IH.
Qed.
End FirstSpan.

(** C10, as stated, fails: a block in the header band whose first line
    has no span and whose second line has the text "x" is passed over by
    the scan, which raises nothing. *)
Lemma find_headings_skips_hollow_header :
  first_span_of (hollow_block 10 30) = Raise IndexError ∧
  block_text (U:=Latin.unicode) (hollow_block 10 30) = lit "x" ∧
  HeuristicStrategy._find_headings (U:=Latin.unicode) hollow_header_document 10
    = Ok [].
Proof. repeat split; vm_compute; reflexivity. Qed.

(** C10, amended. The heading scan of the heuristic strategy returns
    (without raising) when the first line of every text block has a span;
    and it raises IndexError when some page holds a text block whose
    first line has no span, whose cleaned text is not empty (a later line
    gives the text), and which the margin guard lets through: the block
    is not passed over. *)
Theorem find_headings_first_span {U : Unicode}
    (doc : Document.t) (body_size : Z) :
  (Forall (λ page, Forall sound (Page.blocks page)) (Document.pages doc) →
   ∃ headings, HeuristicStrategy._find_headings doc body_size = Ok headings) ∧
  (∀ page b,
     page ∈ Document.pages doc → b ∈ Page.blocks page →
     hollow (Page.rect_height page) b →
     HeuristicStrategy._find_headings doc body_size = Raise IndexError).
Proof.
  split.
  - apply scan_pages_sound.
  - intros page b. apply scan_pages_hollow.
Qed.

(** C10, witness: the same block in the body of the page makes the scan
    raise. *)
Lemma find_headings_first_span_witness :
  HeuristicStrategy._find_headings (U:=Latin.unicode) hollow_body_document 10
    = Raise IndexError.
Proof.
  apply (proj2 (find_headings_first_span (U:=Latin.unicode)
                  hollow_body_document 10)
           (page_of [hollow_block 100 120] 1) (hollow_block 100 120)).
  - apply list_elem_of_here.
  - apply list_elem_of_here.
  - repeat split; try (vm_compute; reflexivity).
    + by eexists _, _.
    + vm_compute. discriminate.
Defined.


(** ** Further properties of the program *)

(** *** [clean_text] *)

Lemma clean_text_solid {U : Unicode} (s : str) :
  starts_solid (clean_text s) ∧ ends_solid (clean_text s).
Proof.
  destruct s as [|c s]; [done|]. unfold clean_text.
  rewrite sub_whitespace_run. split.
  - apply collapse_starts_solid, strip_starts_solid.
  - apply collapse_ends_solid, strip_ends_solid.
Qed.

(** X1. Whatever the text and the Unicode database, a cleaned text
    neither starts nor ends with white space, and the only white space
    in it are single spaces between two other characters. *)
Theorem clean_text_shape {U : Unicode} (s : str) :
  starts_solid (clean_text s) ∧ ends_solid (clean_text s) ∧
  tidy false (clean_text s).
Proof.
  destruct (clean_text_solid s) as [Hs He]. split; [done|]. split; [done|].
  destruct s as [|c s]; [done|]. unfold clean_text.
  rewrite sub_whitespace_run. apply collapse_from_tidy.
Qed.

(** *** The hierarchy correction *)

Section HierarchyCorrection.
Context {U : Unicode}.

Lemma post_process_loop_fixed rest : ∀ last n,
  leveled n last → stepwise n rest →
  BaseStrategy.post_process_loop last rest = Ok rest.
Proof.
  induction rest as [|cur rest IH]; intros last n Hlast Hstep; [done|].
  destruct Hstep as (k & Hk & Hle & Hrest).
  cbn [BaseStrategy.post_process_loop].
  rewrite (level_num_leveled n last), (level_num_leveled k cur); [|done..].
  cbn [mbind result_bind bind].
  assert ((n + 1 <? k) = false) as -> by (apply Z.ltb_ge; lia).
  by rewrite (IH cur k).
Qed.

Lemma post_process_outline_fixed outline :
  stepwise 3 outline → BaseStrategy._post_process_outline outline = Ok outline.
Proof.
  destruct outline as [|first rest]; [done|].
  intros (k & Hk & _ & Hrest). simpl.
  by rewrite (post_process_loop_fixed rest first k).
Qed.

Lemma Forall2_kept_length outline final :
  Forall2 kept outline final → length final = length outline.
Proof. intros H. symmetry. by eapply Forall2_length. Qed.
End HierarchyCorrection.

(** X2. On an outline whose levels are all among H1, H2, H3, the
    hierarchy correction returns an outline of the same length with, item
    by item, the same text and page, a level that is never higher than
    before, and the same level when that level was H1 or H2; the first
    item is returned as it is. *)
Theorem post_process_outline_keeps {U : Unicode} (outline : list OutlineItem.t) :
  Forall (λ item, ∃ k, leveled k item) outline →
  ∃ final,
    BaseStrategy._post_process_outline outline = Ok final ∧
    length final = length outline ∧
    Forall2 kept outline final ∧
    head final = head outline.
Proof.
  intros Hall.
  destruct (post_process_outline_spec outline Hall) as (final & Hok & Hkept & _).
  exists final. split; [done|]. split; [by apply Forall2_kept_length|].
  split; [done|].
  destruct outline as [|first rest]; simpl in Hok.
  - by injection Hok as <-.
  - destruct (BaseStrategy.post_process_loop first rest); [|done].
    by injection Hok as <-.
Qed.

(** X3. The hierarchy correction leaves alone an outline that needs no
    correction (levels among H1, H2, H3, none more than one above the level
    before it), and so correcting twice is the same as correcting once. *)
Theorem post_process_outline_idempotent {U : Unicode}
    (outline : list OutlineItem.t) :
  Forall (λ item, ∃ k, leveled k item) outline →
  ∃ final,
    BaseStrategy._post_process_outline outline = Ok final ∧
    BaseStrategy._post_process_outline final = Ok final ∧
    (stepwise 3 outline → final = outline).
Proof.
  intros Hall.
  destruct (post_process_outline_spec outline Hall) as (final & Hok & _ & Hstep).
  exists final. split; [done|]. split; [by apply post_process_outline_fixed|].
  intros Hfixed. rewrite (post_process_outline_fixed outline Hfixed) in Hok.
  by injection Hok.
Qed.

(** *** The structurer: what it keeps and in what order *)

Section StructurerContents.
Context {U : Unicode}.

Lemma insert_by_pages x l :
  StronglySorted Z.le (map Heading.page l) →
  StronglySorted Z.le (map Heading.page (insert_by BaseStrategy.key_lt x l)).
Proof.
  induction l as [|y l IH]; intros Hl; simpl.
  { repeat constructor. }
  simpl in Hl. apply StronglySorted_inv in Hl as [Hl Hy].
  destruct (BaseStrategy.key_lt y x) eqn:E; simpl.
  - constructor; [by apply IH|].
    assert (Heading.page y ≤ Heading.page x) as Hyx.
    { unfold BaseStrategy.key_lt in E.
      apply orb_true_iff in E as [E%Z.ltb_lt|[E%Z.eqb_eq _]%andb_true_iff]; lia. }
    apply Forall_forall. intros p Hp.
    apply list_elem_of_fmap in Hp as (z & -> & Hz).
    rewrite insert_by_perm in Hz.
    apply elem_of_cons in Hz as [->|Hz]; [done|].
    rewrite Forall_forall in Hy. apply Hy. by apply list_elem_of_fmap_2.
  - assert (Heading.page x ≤ Heading.page y) as Hxy.
    { unfold BaseStrategy.key_lt in E.
      apply orb_false_iff in E as [E%Z.ltb_ge _]. lia. }
    constructor; [by constructor|].
    constructor; [done|].
    eapply Forall_impl; [exact Hy|]. simpl. intros. lia.
Qed.

Lemma sort_by_pages headings :
  StronglySorted Z.le
    (map Heading.page (sort_by BaseStrategy.key_lt headings)).
Proof.
  induction headings as [|h headings IH]; [constructor|].
  unfold sort_by in *. simpl. by apply insert_by_pages.
Qed.

Lemma unique_sublist outline : ∀ seen,
  BaseStrategy.unique seen outline `sublist_of` outline.
Proof.
  induction outline as [|x outline IH]; intros seen; simpl; [done|].
  destruct (decide (_ ∈ seen)).
  - by apply sublist_cons.
  - by apply sublist_skip.
Qed.

Lemma sublist_StronglySorted {A} (R : A → A → Prop) l1 l2 :
  l1 `sublist_of` l2 → StronglySorted R l2 → StronglySorted R l1.
Proof.
  induction 1 as [|x l1 l2 Hsub IH|x l1 l2 Hsub IH]; intros Hs; [done| |].
  - apply StronglySorted_cons in Hs as [Hx Hs].
    apply StronglySorted_cons. split; [|by apply IH].
    apply Forall_forall. intros y Hy. rewrite Forall_forall in Hx.
    apply Hx. by eapply elem_of_sublist.
  - apply StronglySorted_cons in Hs as [_ Hs]. by apply IH.
Qed.

Lemma assign_level_page styles h :
  OutlineItem.page (BaseStrategy.assign_level styles h) = Heading.page h + 1.
Proof. done. Qed.

Lemma assign_level_text styles h :
  OutlineItem.text (BaseStrategy.assign_level styles h) = Heading.text h.
Proof. done. Qed.

(** The outline of a list of candidates that is not empty: its
    identifiers are those of the first occurrences among the sorted
    candidates. *)
Lemma structure_headings_identifiers headings :
  headings ≠ [] →
  let sorted := sort_by BaseStrategy.key_lt headings in
  let styles := BaseStrategy.heading_styles sorted in
  ∃ outline,
    BaseStrategy._structure_headings headings = Ok outline ∧
    map identifier outline
    = map identifier
        (BaseStrategy.unique ∅ (map (BaseStrategy.assign_level styles) sorted)).
Proof.
  intros Hne sorted styles.
  destruct (structure_headings_steps headings Hne) as (final & Hok & Hkept & _).
  exists final. split; [done|]. by apply kept_identifiers.
Qed.
End StructurerContents.

Lemma structure_headings_pairs {U : Unicode} (headings : list Heading.t) :
  ∃ outline,
    BaseStrategy._structure_headings headings = Ok outline ∧
    ∀ text page,
      (text, page) ∈ map identifier outline ↔
      ∃ h, h ∈ headings ∧ Heading.text h = text ∧ Heading.page h + 1 = page.
Proof.
  destruct headings as [|h0 hs].
  { exists []. split; [done|]. intros text page. split.
    - intros Hin. by apply elem_of_nil in Hin.
    - intros (h & Hin & _). by apply elem_of_nil in Hin. }
  destruct (structure_headings_identifiers (h0 :: hs)) as (outline & Hok & Hid);
    [done|].
  exists outline. split; [done|]. intros text page. rewrite Hid.
  set (sorted := sort_by BaseStrategy.key_lt (h0 :: hs)).
  set (styles := BaseStrategy.heading_styles sorted).
  set (leveled_items := map (BaseStrategy.assign_level styles) sorted).
  split.
  - intros Hin. apply list_elem_of_fmap in Hin as (item & Hitem & Hin).
    apply unique_spec in Hin as [_ Hin].
    apply list_elem_of_fmap in Hin as (h & -> & Hh).
    exists h. unfold sorted in Hh. rewrite sort_by_perm in Hh.
    injection Hitem as -> ->. by repeat split.
  - intros (h & Hin & Ht & Hp).
    destruct (unique_covers leveled_items ∅ (BaseStrategy.assign_level styles h))
      as (y & Hy & Hiy).
    { apply list_elem_of_fmap_2. unfold sorted. by rewrite sort_by_perm. }
    { apply not_elem_of_empty. }
    apply list_elem_of_fmap. exists y. split; [|done].
    rewrite Hiy. unfold identifier. simpl. by rewrite Ht, Hp.
Qed.

(** X4. The structurer loses no heading and invents none: a (text, page)
    pair is in the outline exactly when some candidate has that text on
    the page before (pages are counted from 0 in candidates, from 1 in
    the outline). *)
Theorem structure_headings_complete {U : Unicode} (headings : list Heading.t) :
  ∃ outline,
    BaseStrategy._structure_headings headings = Ok outline ∧
    ∀ text page,
      (text, page) ∈ map identifier outline ↔
      ∃ h, h ∈ headings ∧ Heading.text h = text ∧ Heading.page h + 1 = page.
Proof. apply structure_headings_pairs. Qed.

(** X5. The outline of the structurer is in the order of the pages: the
    page numbers of its items never decrease. *)
Theorem structure_headings_pages_sorted {U : Unicode}
    (headings : list Heading.t) :
  ∃ outline,
    BaseStrategy._structure_headings headings = Ok outline ∧
    StronglySorted Z.le (map OutlineItem.page outline).
Proof.
  destruct headings as [|h0 hs].
  { exists []. split; [done|constructor]. }
  destruct (structure_headings_identifiers (h0 :: hs)) as (outline & Hok & Hid);
    [done|].
  exists outline. split; [done|].
  assert (map OutlineItem.page outline = map snd (map identifier outline)) as ->.
  { rewrite <- list_fmap_compose. done. }
  rewrite Hid.
  set (sorted := sort_by BaseStrategy.key_lt (h0 :: hs)).
  set (styles := BaseStrategy.heading_styles sorted).
  eapply sublist_StronglySorted.
  { apply fmap_sublist, fmap_sublist, unique_sublist. }
  rewrite <- !list_fmap_compose.
  pose proof (sort_by_pages (h0 :: hs)) as Hsorted. fold sorted in Hsorted.
  induction sorted as [|h sorted IH]; [constructor|].
  simpl in Hsorted. apply StronglySorted_inv in Hsorted as [Hs Hh].
  simpl. constructor; [by apply IH|].
  rewrite Forall_fmap in Hh. rewrite Forall_fmap.
  eapply Forall_impl; [exact Hh|]. simpl. intros. lia.
Qed.

(** *** The font statistics *)

Section FontStatistics.
Context {U : Unicode}.

Lemma counter_add_keys key n c :
  NoDup (map fst c) → NoDup (map fst (counter_add key n c)).
Proof.
  assert (∀ c, map fst (counter_add key n c)
               = if decide (key ∈ map fst c) then map fst c
                 else map fst c ++ [key]) as Hkeys.
  { clear c. induction c as [|[k v] c IH]; [done|]. simpl.
    destruct (Z.eqb_spec k key) as [->|Hne]; simpl.
    - rewrite decide_True; [done|]. apply elem_of_cons. by left.
    - rewrite IH. destruct (decide (key ∈ map fst c)) as [Hin|Hout].
      + rewrite decide_True; [done|]. apply elem_of_cons. by right.
      + rewrite decide_False; [done|].
        intros [?|?]%elem_of_cons; [by subst|done]. }
  intros Hnd. rewrite Hkeys. destruct (decide (key ∈ map fst c)); [done|].
  apply NoDup_app. split; [done|]. split; [|apply NoDup_singleton].
  intros x Hx Hx'%list_elem_of_singleton. by subst.
Qed.

Lemma fold_left_invariant {A B} (P : A → Prop) (f : A → B → A) l : ∀ a,
  (∀ a b, P a → P (f a b)) → P a → P (fold_left f l a).
Proof.
  induction l as [|b l IH]; intros a Hf Ha; [done|].
  simpl. apply IH; [done|]. by apply Hf.
Qed.

Lemma analyze_font_stats_keys doc :
  NoDup (map fst (HeuristicStrategy._analyze_font_stats doc)).
Proof.
  unfold HeuristicStrategy._analyze_font_stats.
  apply fold_left_invariant; [|constructor]. intros counts page Hc.
  apply fold_left_invariant; [|done]. clear counts Hc. intros counts block Hc.
  destruct (Block.type block =? 0); [|done].
  apply fold_left_invariant; [|done]. clear counts Hc. intros counts span Hc.
  destruct (nonempty (strip (Span.text span))); [|done].
  by apply counter_add_keys.
Qed.

Lemma most_common_1_spec c : ∀ first,
  most_common_1 first c ∈ first :: c ∧
  ∀ e, e ∈ first :: c → snd e ≤ snd (most_common_1 first c).
Proof.
  unfold most_common_1. induction c as [|x c IH]; intros first; simpl.
  - split; [apply list_elem_of_here|].
    intros e ->%list_elem_of_singleton. lia.
  - destruct (snd first <? snd x) eqn:E.
    + apply Z.ltb_lt in E. destruct (IH x) as [Hin Hmax]. split.
      * by apply elem_of_cons; right.
      * intros e [->|He]%elem_of_cons; [|by apply Hmax].
        specialize (Hmax x (list_elem_of_here _ _)). lia.
    + apply Z.ltb_ge in E. destruct (IH first) as [Hin Hmax]. split.
      * apply elem_of_cons in Hin as [->|Hin]; [apply list_elem_of_here|].
        by do 2 (apply elem_of_cons; right).
      * intros e [->|[->|He]%elem_of_cons]%elem_of_cons.
        -- apply Hmax, list_elem_of_here.
        -- specialize (Hmax first (list_elem_of_here _ _)). lia.
        -- apply Hmax. by apply elem_of_cons; right.
Qed.
End FontStatistics.

(** X6. The font statistics hold every rounded size once, and the body
    size is 10 when they are empty and otherwise a size of the statistics
    whose count no other size exceeds. *)
Theorem body_size_dominant {U : Unicode} (doc : Document.t) :
  let font_stats := HeuristicStrategy._analyze_font_stats doc in
  let body_size := HeuristicStrategy._get_dominant_font_size font_stats in
  NoDup (map fst font_stats) ∧
  (font_stats = [] → body_size = 10) ∧
  (font_stats ≠ [] →
   ∃ n, (body_size, n) ∈ font_stats ∧
        ∀ size n', (size, n') ∈ font_stats → n' ≤ n).
Proof.
  intros font_stats body_size. split; [apply analyze_font_stats_keys|].
  split; [by unfold body_size; intros ->|].
  unfold body_size. destruct font_stats as [|first rest]; [done|]. intros _.
  destruct (most_common_1_spec rest first) as [Hin Hmax].
  exists (snd (most_common_1 first rest)). simpl. split.
  - by destruct (most_common_1 first rest).
  - intros size n' He. apply (Hmax (size, n') He).
Qed.

(** *** The table of contents *)

(** X7. Entries of the table of contents deeper than level 3 play no
    part: the outline is the one of the table without them. *)
Theorem process_toc_ignores_deep_entries {U : Unicode}
    (toc : list (Z * str * Z)) :
  TOCStrategy._process_toc
    (List.filter (λ entry, fst (fst entry) <=? 3) toc)
  = TOCStrategy._process_toc toc.
Proof.
  unfold TOCStrategy._process_toc. f_equal.
  induction toc as [|[[level title] page] toc IH]; [done|].
  cbn [List.filter fst]. destruct (level <=? 3) eqn:E.
  - cbn [TOCStrategy.toc_items]. by rewrite IH.
  - cbn [TOCStrategy.toc_items TOCStrategy.entry_items]. rewrite E.
    cbn [mbind result_bind bind]. rewrite IH.
    by destruct (TOCStrategy.toc_items toc).
Qed.

(** *** The batch, document by document *)

(** X8. A batch is processed document by document: the records written
    and the log of two batches run one after the other are those of the
    two batches, in that order. No document changes what is written for
    another. *)
Theorem main_app {U : Unicode} (files files' : list Main.PdfFile) :
  Main.main (files ++ files')
  = (fst (Main.main files) ++ fst (Main.main files'),
     snd (Main.main files) ++ snd (Main.main files')).
Proof.
  induction files as [|f files IH]; simpl.
  - by destruct (Main.main files').
  - rewrite IH. destruct (Main.extract_or_default f) as [result outcome].
    destruct (Main.main files) as [written log].
    by destruct (Main.output_writable f).
Qed.

(** *** What the heuristic scan accepts and rejects *)

Section HeuristicScan.
Context {U : Unicode}.

Lemma scan_block_raise body_size page_height page_num b e :
  HeuristicStrategy.scan_block body_size page_height page_num b = Raise e →
  e = IndexError ∧ hollow page_height b.
Proof.
  unfold HeuristicStrategy.scan_block, hollow.
  destruct (Block.type b =? 0) eqn:Htype; [|done].
  apply Z.eqb_eq in Htype.
  destruct (Block.lines b) as [|l ls] eqn:Hlines; [done|].
  cbn [negb nonempty orb].
  destruct (block_text b) as [|c t] eqn:Htext; [done|].
  cbn [negb nonempty].
  destruct (Qltb (y0 (Block.bbox b)) 50) eqn:Htop; [done|].
  destruct (Qltb (page_height - 50) (y1 (Block.bbox b))) eqn:Hbottom; [done|].
  cbn [orb]. unfold first_span_of. rewrite Hlines.
  destruct (Line.spans l) as [|span spans] eqn:Hspans.
  - cbn [mbind result_bind bind]. intros [= <-].
    split; [done|]. split; [done|]. split; [by exists l, ls|]. by split.
  - cbn [mbind result_bind bind].
    by match goal with |- context [if ?c then _ else _] => destruct c end.
Qed.

Lemma scan_blocks_raise body_size page_height page_num blocks e :
  HeuristicStrategy.scan_blocks body_size page_height page_num blocks
    = Raise e →
  e = IndexError ∧ ∃ b, b ∈ blocks ∧ hollow page_height b.
Proof.
  induction blocks as [|b blocks IH]; [done|].
  cbn [HeuristicStrategy.scan_blocks].
  destruct (HeuristicStrategy.scan_block body_size page_height page_num b)
    as [h|e'] eqn:Hb; cbn [mbind result_bind bind].
  - destruct (HeuristicStrategy.scan_blocks body_size page_height page_num
                blocks) as [hs|e'] eqn:Hbs; [done|].
    cbn [mbind result_bind bind]. intros [= <-].
    destruct (IH eq_refl) as (-> & b' & Hin & Hb').
    split; [done|]. exists b'. split; [by apply elem_of_cons; right|done].
  - intros [= <-]. apply scan_block_raise in Hb as [-> Hb].
    split; [done|]. exists b. split; [apply list_elem_of_here|done].
Qed.

Lemma scan_pages_raise body_size pages e : ∀ page_num,
  HeuristicStrategy.scan_pages body_size page_num pages = Raise e →
  e = IndexError ∧
  ∃ page b, page ∈ pages ∧ b ∈ Page.blocks page ∧
            hollow (Page.rect_height page) b.
Proof.
  induction pages as [|page pages IH]; intros page_num; [done|].
  cbn [HeuristicStrategy.scan_pages].
  destruct (HeuristicStrategy.scan_blocks body_size (Page.rect_height page)
              page_num (Page.blocks page)) as [here|e'] eqn:Hhere;
    cbn [mbind result_bind bind].
  - destruct (HeuristicStrategy.scan_pages body_size (page_num + 1) pages)
      as [hs|e'] eqn:Hrest; [done|].
    cbn [mbind result_bind bind]. intros [= <-].
    destruct (IH _ Hrest) as (-> & page' & b & Hpage & Hb & Hhollow).
    split; [done|]. exists page', b.
    split; [by apply elem_of_cons; right|done].
  - intros [= <-]. apply scan_blocks_raise in Hhere as (-> & b & Hb & Hhollow).
    split; [done|]. exists page, b. split; [apply list_elem_of_here|done].
Qed.

Lemma heuristic_extract_find_headings doc body_size e :
  HeuristicStrategy.extract doc body_size = Raise e ↔
  HeuristicStrategy._find_headings doc body_size = Raise e.
Proof.
  unfold HeuristicStrategy.extract.
  destruct (HeuristicStrategy._find_headings doc body_size) as [hs|e'];
    cbn [mbind result_bind bind]; [|by split; intros [= ->]].
  destruct (structure_headings_spec hs) as (outline & -> & _).
  cbn [mbind result_bind bind]. split; intros [=].
Qed.
End HeuristicScan.

(** X9. The extraction of the heuristic strategy fails in one way only:
    it raises exactly when some page holds a text block that the margin
    guard lets through, with a cleaned text that is not empty and a first
    line without a span, and the exception is then IndexError. *)
Theorem heuristic_extract_raises_iff {U : Unicode}
    (doc : Document.t) (body_size : Z) :
  (∀ e, HeuristicStrategy.extract doc body_size = Raise e → e = IndexError) ∧
  (HeuristicStrategy.extract doc body_size = Raise IndexError ↔
   ∃ page b, page ∈ Document.pages doc ∧ b ∈ Page.blocks page ∧
             hollow (Page.rect_height page) b).
Proof.
  split.
  - intros e He%heuristic_extract_find_headings.
    by apply scan_pages_raise in He as [-> _].
  - rewrite heuristic_extract_find_headings. split.
    + intros He. by apply scan_pages_raise in He as [_ He].
    + intros (page & b & Hpage & Hb & Hhollow).
      by apply (scan_pages_hollow body_size _ page b).
Qed.

Section PlainBlock.
Context {U : Unicode}.

Lemma plain_score body_size size block_text :
  size ≤ body_size →
  Re.match_ HeuristicStrategy.section_numbering block_text = None →
  HeuristicStrategy.score body_size size false block_text ≤ 15.
Proof.
  intros Hsize Hnum. unfold HeuristicStrategy.score. rewrite Hnum.
  assert ((body_size <? size) = false) as -> by (apply Z.ltb_ge; lia).
  rewrite bool_decide_eq_false_2; [|by intros [? ?]].
  repeat match goal with |- context [if ?c then _ else _] => destruct c end;
    lia.
Qed.
End PlainBlock.

(** X10. A block at the body size or below, whose first span is not bold
    and whose cleaned text does not begin with a section numbering, scores
    at most 15 and is never a heading candidate of the heuristic scan. *)
Theorem heuristic_plain_block_rejected {U : Unicode}
    (body_size : Z) (page_height : float) (page_num : Z)
    (b : Block.t) (first_span : Span.t) :
  first_span_of b = Ok first_span →
  round (Span.size first_span) ≤ body_size →
  font_is_bold first_span = false →
  Re.match_ HeuristicStrategy.section_numbering (block_text b) = None →
  HeuristicStrategy.score body_size (round (Span.size first_span)) false
    (block_text b) ≤ 15 ∧
  HeuristicStrategy.scan_block body_size page_height page_num b = Ok None.
Proof.
  intros Hspan Hsize Hbold Hnum.
  pose proof (plain_score body_size _ _ Hsize Hnum) as Hscore.
  split; [done|]. unfold HeuristicStrategy.scan_block.
  destruct (negb (Block.type b =? 0) || negb (nonempty (Block.lines b)));
    [done|].
  destruct (negb (nonempty (block_text b))); [done|].
  destruct (Qltb (y0 (Block.bbox b)) 50
            || Qltb (page_height - 50) (y1 (Block.bbox b))); [done|].
  rewrite Hspan. cbn [mbind result_bind bind]. rewrite Hbold.
  assert ((25 <=? HeuristicStrategy.score body_size
                    (round (Span.size first_span)) false (block_text b))
          = false) as -> by (apply Z.leb_gt; lia).
  done.
Qed.

(** *** The candidates of the heuristic scan *)

Section Candidates.
Context {U : Unicode}.

Lemma scan_block_some body_size page_height page_num b h :
  HeuristicStrategy.scan_block body_size page_height page_num b = Ok (Some h) →
  Heading.text h = block_text b ∧ block_text b ≠ [] ∧
  Heading.page h = page_num ∧ Heading.bbox h = Block.bbox b ∧
  Qltb (y0 (Block.bbox b)) 50 = false ∧
  Qltb (page_height - 50) (y1 (Block.bbox b)) = false.
Proof.
  unfold HeuristicStrategy.scan_block.
  destruct (negb (Block.type b =? 0) || negb (nonempty (Block.lines b)));
    [done|].
  destruct (block_text b) as [|c t] eqn:Htext; [done|]. cbn [negb nonempty].
  destruct (Qltb (y0 (Block.bbox b)) 50); [done|].
  destruct (Qltb (page_height - 50) (y1 (Block.bbox b))); [done|].
  cbn [orb]. destruct (first_span_of b) as [span|]; [|done].
  cbn [mbind result_bind bind].
  match goal with |- context [if ?c then _ else _] => destruct c end; [|done].
  intros [= <-]. by repeat split.
Qed.

Lemma scan_blocks_members body_size page_height page_num blocks : ∀ hs,
  HeuristicStrategy.scan_blocks body_size page_height page_num blocks = Ok hs →
  ∀ h, h ∈ hs →
    ∃ b, b ∈ blocks ∧
         HeuristicStrategy.scan_block body_size page_height page_num b
           = Ok (Some h).
Proof.
  induction blocks as [|b blocks IH]; intros hs.
  { intros [= <-] h Hh. by apply elem_of_nil in Hh. }
  cbn [HeuristicStrategy.scan_blocks].
  destruct (HeuristicStrategy.scan_block body_size page_height page_num b)
    as [o|] eqn:Hb; [|done].
  cbn [mbind result_bind bind].
  destruct (HeuristicStrategy.scan_blocks body_size page_height page_num blocks)
    as [hs'|]; [|done].
  cbn [mbind result_bind bind]. intros [= <-] h Hh.
  apply elem_of_app in Hh as [Hh|Hh].
  - destruct o as [h'|]; [|by apply elem_of_nil in Hh].
    apply list_elem_of_singleton in Hh as ->.
    exists b. split; [apply list_elem_of_here|done].
  - destruct (IH hs' eq_refl h Hh) as (b' & Hin & Hb').
    exists b'. split; [by apply elem_of_cons; right|done].
Qed.

Lemma scan_pages_members body_size pages : ∀ page_num hs,
  HeuristicStrategy.scan_pages body_size page_num pages = Ok hs →
  ∀ h, h ∈ hs →
    ∃ (i : nat) page b,
      pages !! i = Some page ∧ b ∈ Page.blocks page ∧
      HeuristicStrategy.scan_block body_size (Page.rect_height page)
        (page_num + Z.of_nat i) b = Ok (Some h).
Proof.
  induction pages as [|page pages IH]; intros page_num hs.
  { intros [= <-] h Hh. by apply elem_of_nil in Hh. }
  cbn [HeuristicStrategy.scan_pages].
  destruct (HeuristicStrategy.scan_blocks body_size (Page.rect_height page)
              page_num (Page.blocks page)) as [here|] eqn:Hhere; [|done].
  cbn [mbind result_bind bind].
  destruct (HeuristicStrategy.scan_pages body_size (page_num + 1) pages)
    as [rest|] eqn:Hrest; [|done].
  cbn [mbind result_bind bind]. intros [= <-] h Hh.
  apply elem_of_app in Hh as [Hh|Hh].
  - destruct (scan_blocks_members _ _ _ _ _ Hhere h Hh) as (b & Hb & Hscan).
    exists 0%nat, page, b. split; [done|]. split; [done|].
    by rewrite Z.add_0_r.
  - destruct (IH _ _ Hrest h Hh) as (i & page' & b & Hi & Hb & Hscan).
    exists (S i), page', b. split; [done|]. split; [done|].
    by replace (page_num + Z.of_nat (S i)) with (page_num + 1 + Z.of_nat i)
      by lia.
Qed.

Lemma find_headings_members doc body_size hs h :
  HeuristicStrategy._find_headings doc body_size = Ok hs → h ∈ hs →
  ∃ (i : nat) page b,
    Document.pages doc !! i = Some page ∧ b ∈ Page.blocks page ∧
    Heading.page h = Z.of_nat i ∧ Heading.text h = block_text b ∧
    block_text b ≠ [] ∧ Heading.bbox h = Block.bbox b ∧
    outside_margins page (Block.bbox b).
Proof.
  intros Hfind Hh.
  destruct (scan_pages_members _ _ _ _ Hfind h Hh)
    as (i & page & b & Hi & Hb & Hscan).
  apply scan_block_some in Hscan as (Ht & Hne & Hp & Hbox & Htop & Hbottom).
  exists i, page, b. by repeat split.
Qed.
End Candidates.

(** X11. Every heading candidate of the heuristic scan is a block of
    the page it is filed under (a page of the document, counted from 0):
    its text is the cleaned text of the block, which is not empty, its box
    is the box of the block, and the block lies outside the top and bottom
    margins of that page. *)
Theorem find_headings_candidates {U : Unicode}
    (doc : Document.t) (body_size : Z) (headings : list Heading.t) :
  HeuristicStrategy._find_headings doc body_size = Ok headings →
  Forall (λ h,
    0 ≤ Heading.page h < Document.page_count doc ∧
    ∃ page b,
      Document.pages doc !! Z.to_nat (Heading.page h) = Some page ∧
      b ∈ Page.blocks page ∧
      Heading.text h = block_text b ∧ Heading.text h ≠ [] ∧
      Heading.bbox h = Block.bbox b ∧
      outside_margins page (Heading.bbox h)) headings.
Proof.
  intros Hfind. apply Forall_forall. intros h Hh.
  destruct (find_headings_members doc body_size headings h Hfind Hh)
    as (i & page & b & Hi & Hb & Hp & Ht & Hne & Hbox & Hout).
  pose proof (lookup_lt_Some _ _ _ Hi) as Hlt.
  split; [rewrite Hp; unfold Document.page_count; lia|].
  exists page, b. rewrite Hp, Nat2Z.id, Ht, Hbox.
  do 4 (split; [done|]). by split.
Qed.

(** *** The candidates of the visual layout scan *)

Section VisualScan.
Context {U : Unicode}.

Lemma visual_scan_block_outcome body_size page_width page_num blocks i b :
  (∃ o, VisualLayoutStrategy.scan_block body_size page_width page_num blocks
          i b = Ok o)
  ∨ (VisualLayoutStrategy.scan_block body_size page_width page_num blocks i b
       = Raise IndexError ∧ visual_hollow b).
Proof.
  unfold VisualLayoutStrategy.scan_block, visual_hollow.
  destruct (Block.type b =? 0) eqn:Htype; [|left; by eexists].
  apply Z.eqb_eq in Htype.
  destruct (Block.lines b) as [|l ls] eqn:Hlines; [left; by eexists|].
  cbn [negb nonempty orb].
  destruct (negb (nonempty (block_text b))
            || (Z.of_nat (length (block_text b)) <? 4)) eqn:Hshort;
    [left; by eexists|].
  apply orb_false_iff in Hshort as [_ Hlen%Z.ltb_ge].
  unfold first_span_of. rewrite Hlines.
  destruct (Line.spans l) as [|span spans] eqn:Hspans.
  - right. split; [done|]. split; [done|]. split; [by exists l, ls|done].
  - left. cbn [mbind result_bind bind].
    match goal with |- context [if ?c then _ else _] => destruct c end;
      by eexists.
Qed.

Lemma visual_scan_block_hollow body_size page_width page_num blocks i b :
  visual_hollow b →
  VisualLayoutStrategy.scan_block body_size page_width page_num blocks i b
    = Raise IndexError.
Proof.
  intros (Htype & (l & ls & Hlines & Hspans) & Hlen).
  unfold VisualLayoutStrategy.scan_block, first_span_of.
  rewrite Htype, Hlines, Hspans. cbn [Z.eqb negb nonempty orb].
  assert ((Z.of_nat (length (block_text b)) <? 4) = false) as ->
    by (apply Z.ltb_ge; lia).
  destruct (block_text b); [simpl in Hlen; lia|done].
Qed.

Lemma visual_scan_block_page body_size page_width page_num blocks i b h :
  VisualLayoutStrategy.scan_block body_size page_width page_num blocks i b
    = Ok (Some h) →
  Heading.page h = page_num.
Proof.
  unfold VisualLayoutStrategy.scan_block.
  destruct (negb (Block.type b =? 0) || negb (nonempty (Block.lines b)));
    [done|].
  destruct (negb (nonempty (block_text b))
            || (Z.of_nat (length (block_text b)) <? 4)); [done|].
  destruct (first_span_of b); [|done]. cbn [mbind result_bind bind].
  match goal with |- context [if ?c then _ else _] => destruct c end; [|done].
  by intros [= <-].
Qed.

Lemma visual_scan_from_spec body_size page_width page_num blocks rest : ∀ i,
  (∃ hs, VisualLayoutStrategy.scan_from body_size page_width page_num blocks
           i rest = Ok hs ∧
         Forall (λ h, Heading.page h = page_num) hs ∧
         ∀ b, b ∈ rest → ¬ visual_hollow b)
  ∨ (VisualLayoutStrategy.scan_from body_size page_width page_num blocks
       i rest = Raise IndexError ∧
     ∃ b, b ∈ rest ∧ visual_hollow b).
Proof.
  induction rest as [|b rest IH]; intros i.
  { left. exists []. split; [done|]. split; [constructor|].
    intros b Hb. by apply elem_of_nil in Hb. }
  cbn [VisualLayoutStrategy.scan_from].
  destruct (visual_scan_block_outcome body_size page_width page_num blocks i b)
    as [[o Ho]|[Hraise Hhollow]].
  - rewrite Ho. cbn [mbind result_bind bind].
    destruct (IH (S i)) as [(hs & -> & Hpages & Hnone)|[-> (b' & Hb' & Hh)]].
    + left. cbn [mbind result_bind bind]. eexists. split; [done|]. split.
      * apply Forall_app. split; [|done].
        destruct o as [h|]; [|constructor]. repeat constructor.
        by eapply visual_scan_block_page.
      * intros b' [->|Hb']%elem_of_cons; [|by apply Hnone].
        intros Hhollow.
        rewrite (visual_scan_block_hollow _ _ _ _ _ _ Hhollow) in Ho. done.
    + right. split; [done|]. exists b'.
      split; [by apply elem_of_cons; right|done].
  - right. rewrite Hraise. split; [done|]. exists b.
    split; [apply list_elem_of_here|done].
Qed.

Lemma sorted_blocks_members page b :
  b ∈ VisualLayoutStrategy.sorted_blocks page ↔ b ∈ Page.blocks page.
Proof. unfold VisualLayoutStrategy.sorted_blocks. by rewrite sort_by_perm. Qed.

Lemma visual_scan_pages_spec body_size pages : ∀ page_num,
  (∃ hs, VisualLayoutStrategy.scan_pages body_size page_num pages = Ok hs ∧
         Forall (λ h, page_num ≤ Heading.page h
                      < page_num + Z.of_nat (length pages)) hs ∧
         ∀ page b, page ∈ pages → b ∈ Page.blocks page → ¬ visual_hollow b)
  ∨ (VisualLayoutStrategy.scan_pages body_size page_num pages
       = Raise IndexError ∧
     ∃ page b, page ∈ pages ∧ b ∈ Page.blocks page ∧ visual_hollow b).
Proof.
  induction pages as [|page pages IH]; intros page_num.
  { left. exists []. split; [done|]. split; [constructor|].
    intros page b Hp. by apply elem_of_nil in Hp. }
  cbn [VisualLayoutStrategy.scan_pages].
  destruct (visual_scan_from_spec body_size (Page.rect_width page) page_num
              (VisualLayoutStrategy.sorted_blocks page)
              (VisualLayoutStrategy.sorted_blocks page) 0)
    as [(here & -> & Hhere & Hnone)|[-> (b & Hb & Hh)]].
  - cbn [mbind result_bind bind].
    destruct (IH (page_num + 1))
      as [(hs & -> & Hpages & Hnone')|[-> (page' & b & Hp & Hb & Hh)]].
    + left. cbn [mbind result_bind bind]. eexists. split; [done|]. split.
      * apply Forall_app. split.
        -- eapply Forall_impl; [exact Hhere|]. simpl. intros h ->. lia.
        -- eapply Forall_impl; [exact Hpages|]. simpl. intros h Hh. lia.
      * intros page' b [->|Hp]%elem_of_cons Hb.
        -- apply Hnone. by apply sorted_blocks_members.
        -- by apply (Hnone' page').
    + right. split; [done|]. exists page', b.
      split; [by apply elem_of_cons; right|done].
  - right. split; [done|]. exists page, b.
    split; [apply list_elem_of_here|].
    split; [by apply sorted_blocks_members|done].
Qed.

Lemma visual_extract_find_headings doc body_size e :
  VisualLayoutStrategy.extract doc body_size = Raise e ↔
  VisualLayoutStrategy.scan_pages body_size 0 (Document.pages doc) = Raise e.
Proof.
  unfold VisualLayoutStrategy.extract.
  destruct (VisualLayoutStrategy.scan_pages body_size 0 (Document.pages doc))
    as [hs|e']; cbn [mbind result_bind bind]; [|by split; intros [= ->]].
  destruct (structure_headings_spec hs) as (outline & -> & _).
  cbn [mbind result_bind bind]. split; intros [=].
Qed.
End VisualScan.

(** X12. The extraction of the visual layout strategy fails in one way
    only: it raises exactly when some page holds a text block with a
    cleaned text of at least 4 characters and a first line without a span,
    and the exception is then IndexError. *)
Theorem visual_extract_raises_iff {U : Unicode}
    (doc : Document.t) (body_size : Z) :
  (∀ e, VisualLayoutStrategy.extract doc body_size = Raise e →
        e = IndexError) ∧
  (VisualLayoutStrategy.extract doc body_size = Raise IndexError ↔
   ∃ page b, page ∈ Document.pages doc ∧ b ∈ Page.blocks page ∧
             visual_hollow b).
Proof.
  destruct (visual_scan_pages_spec body_size (Document.pages doc) 0)
    as [(hs & Hok & _ & Hnone)|[Hraise Hhollow]].
  - split.
    + intros e He%visual_extract_find_headings. by rewrite Hok in He.
    + rewrite visual_extract_find_headings, Hok. split; [done|].
      intros (page & b & Hp & Hb & Hh). by destruct (Hnone page b).
  - split.
    + intros e He%visual_extract_find_headings. rewrite Hraise in He.
      by injection He.
    + by rewrite visual_extract_find_headings.
Qed.

(** *** The outline of an extraction *)

Section ExtractedOutline.
Context {U : Unicode}.

Lemma structure_headings_origin headings outline item :
  BaseStrategy._structure_headings headings = Ok outline → item ∈ outline →
  ∃ h, h ∈ headings ∧ OutlineItem.text item = Heading.text h ∧
       OutlineItem.page item = Heading.page h + 1.
Proof.
  intros Hok Hitem.
  destruct (structure_headings_pairs headings) as (outline' & Hok' & Hpairs).
  rewrite Hok in Hok'. injection Hok' as <-.
  destruct (proj1 (Hpairs (OutlineItem.text item) (OutlineItem.page item)))
    as (h & Hh & Ht & Hp).
  { by apply (list_elem_of_fmap_2 identifier). }
  by exists h.
Qed.

Lemma structure_headings_pages headings outline lo hi :
  BaseStrategy._structure_headings headings = Ok outline →
  Forall (λ h, lo ≤ Heading.page h < hi) headings →
  Forall (λ item, lo + 1 ≤ OutlineItem.page item ≤ hi) outline.
Proof.
  intros Hok Hall. apply Forall_forall. intros item Hitem.
  destruct (structure_headings_origin _ _ _ Hok Hitem) as (h & Hh & _ & ->).
  rewrite Forall_forall in Hall. specialize (Hall h Hh). lia.
Qed.

Lemma heuristic_extract_pages doc body_size r :
  HeuristicStrategy.extract doc body_size = Ok r →
  Forall (λ item, 1 ≤ OutlineItem.page item ≤ Document.page_count doc)
    (Extraction.outline r).
Proof.
  unfold HeuristicStrategy.extract.
  destruct (HeuristicStrategy._find_headings doc body_size) as [hs|] eqn:Hfind;
    [|done].
  cbn [mbind result_bind bind].
  destruct (BaseStrategy._structure_headings hs) as [outline|] eqn:Hs; [|done].
  cbn [mbind result_bind bind]. intros [= <-]. simpl.
  apply (structure_headings_pages hs outline 0 _ Hs).
  apply Forall_forall. intros h Hh.
  destruct (find_headings_members doc body_size hs h Hfind Hh)
    as (i & page & b & Hi & _ & -> & _).
  apply lookup_lt_Some in Hi. unfold Document.page_count. lia.
Qed.

Lemma visual_extract_pages doc body_size r :
  VisualLayoutStrategy.extract doc body_size = Ok r →
  Forall (λ item, 1 ≤ OutlineItem.page item ≤ Document.page_count doc)
    (Extraction.outline r).
Proof.
  unfold VisualLayoutStrategy.extract.
  destruct (visual_scan_pages_spec body_size (Document.pages doc) 0)
    as [(hs & -> & Hpages & _)|[-> _]]; [|done].
  cbn [mbind result_bind bind].
  destruct (BaseStrategy._structure_headings hs) as [outline|] eqn:Hs; [|done].
  cbn [mbind result_bind bind]. intros [= <-]. simpl.
  by apply (structure_headings_pages hs outline 0 _ Hs).
Qed.

(** The items of the table of contents, before the correction. *)
Lemma sub_heading_items_leveled level page subs : ∀ items,
  1 ≤ level ≤ 3 →
  TOCStrategy.sub_heading_items level page subs = Ok items →
  Forall (λ item, leveled level item ∧ OutlineItem.page item = page + 1 ∧
                  stripped (OutlineItem.text item)) items.
Proof.
  induction subs as [|[sub|] subs IH]; intros items Hlevel; simpl.
  - by intros [= <-].
  - destruct (TOCStrategy.sub_heading_items level page subs) as [rest|];
      [|done].
    cbn [mbind result_bind bind].
    destruct (nonempty (strip sub)); intros [= <-]; [|by apply IH].
    constructor; [|by apply IH]. split; [done|]. split; [done|].
    simpl. unfold stripped.
    apply strip_id; [apply strip_starts_solid|apply strip_ends_solid].
  - done.
Qed.

Lemma toc_items_leveled toc : ∀ items,
  Forall (λ entry, 1 ≤ fst (fst entry)) toc →
  TOCStrategy.toc_items toc = Ok items →
  Forall (λ item, ∃ k, leveled k item) items.
Proof.
  induction toc as [|[[level title] page] toc IH]; intros items Hall; simpl.
  { by intros [= <-]. }
  inversion Hall as [|? ? Hlevel Hrest]; subst. simpl in Hlevel.
  destruct (level <=? 3) eqn:E.
  - apply Z.leb_le in E.
    match goal with |- context [if ?c then _ else _] => destruct c end.
    + destruct (TOCStrategy.sub_heading_items level page _) as [here|] eqn:Hh;
        [|done].
      cbn [mbind result_bind bind].
      destruct (TOCStrategy.toc_items toc) as [rest|]; [|done].
      cbn [mbind result_bind bind]. intros [= <-]. apply Forall_app. split.
      * apply sub_heading_items_leveled in Hh; [|lia].
        eapply Forall_impl; [exact Hh|]. simpl. intros item [Hl _].
        by exists level.
      * by apply IH.
    + cbn [mbind result_bind bind].
      destruct (TOCStrategy.toc_items toc) as [rest|]; [|done].
      cbn [mbind result_bind bind]. intros [= <-]. by apply IH.
  - cbn [mbind result_bind bind].
    destruct (TOCStrategy.toc_items toc) as [rest|]; [|done].
    cbn [mbind result_bind bind]. intros [= <-]. by apply IH.
Qed.

Lemma toc_extract_stepwise doc r :
  Forall (λ entry, 1 ≤ fst (fst entry)) (Document.get_toc doc) →
  TOCStrategy.extract doc = Ok r → stepwise 3 (Extraction.outline r).
Proof.
  intros Hall. unfold TOCStrategy.extract, TOCStrategy._process_toc.
  destruct (TOCStrategy.toc_items (Document.get_toc doc)) as [items|] eqn:Hi;
    [|done].
  cbn [mbind result_bind bind].
  destruct (post_process_outline_spec items) as (final & -> & _ & Hstep).
  { by apply toc_items_leveled with (toc := Document.get_toc doc). }
  cbn [mbind result_bind bind]. by intros [= <-].
Qed.

Lemma structured_extract_stepwise hs outline :
  BaseStrategy._structure_headings hs = Ok outline → stepwise 3 outline.
Proof.
  intros Hok. destruct (structure_headings_spec hs) as (o & Hok' & _ & Hstep).
  rewrite Hok in Hok'. by injection Hok' as <-.
Qed.
End ExtractedOutline.

(** X13. Whenever a strategy other than the TOC strategy returns a
    result, every page number in its outline is a page of the document,
    counted from 1: between 1 and the page count. *)
Theorem outline_pages_in_document {U : Unicode}
    (strategy : Strategy.t) (r : Extraction.t) :
  kind strategy ≠ Kind.TOC →
  PDFOutlineExtractor.extract strategy = Ok r →
  Forall (λ item,
    1 ≤ OutlineItem.page item ≤ Document.page_count (strategy_doc strategy))
    (Extraction.outline r).
Proof.
  destruct strategy as [doc|doc fs bs|doc fs bs|doc fs bs]; simpl;
    intros Hkind Hok; [done| | |].
  - by apply (heuristic_extract_pages doc bs).
  - unfold FormStrategy.extract in Hok. injection Hok as <-. constructor.
  - by apply (visual_extract_pages doc bs).
Qed.

(** X14. Whatever the strategy, when the levels of the table of contents
    start at 1, the outline of a returned result has all its levels among
    H1, H2, H3 and no level more than one above the level of the item
    before it. *)
Theorem extract_outline_stepwise {U : Unicode}
    (strategy : Strategy.t) (r : Extraction.t) :
  Forall (λ entry, 1 ≤ fst (fst entry))
    (Document.get_toc (strategy_doc strategy)) →
  PDFOutlineExtractor.extract strategy = Ok r →
  stepwise 3 (Extraction.outline r) ∧
  ∀ i a b,
    Extraction.outline r !! i = Some a →
    Extraction.outline r !! S i = Some b →
    ∃ la lb, BaseStrategy.level_num a = Ok la ∧
             BaseStrategy.level_num b = Ok lb ∧ lb ≤ la + 1.
Proof.
  intros Htoc Hok.
  assert (stepwise 3 (Extraction.outline r)) as Hstep.
  { destruct strategy as [doc|doc fs bs|doc fs bs|doc fs bs]; simpl in *.
    - by apply (toc_extract_stepwise doc).
    - unfold HeuristicStrategy.extract in Hok.
      destruct (HeuristicStrategy._find_headings doc bs) as [hs|]; [|done].
      cbn [mbind result_bind bind] in Hok.
      destruct (BaseStrategy._structure_headings hs) as [o|] eqn:Hs; [|done].
      injection Hok as <-. by apply (structured_extract_stepwise hs).
    - unfold FormStrategy.extract in Hok. by injection Hok as <-.
    - unfold VisualLayoutStrategy.extract in Hok.
      destruct (VisualLayoutStrategy.scan_pages bs 0 (Document.pages doc))
        as [hs|]; [|done].
      cbn [mbind result_bind bind] in Hok.
      destruct (BaseStrategy._structure_headings hs) as [o|] eqn:Hs; [|done].
      injection Hok as <-. by apply (structured_extract_stepwise hs). }
  split; [done|]. intros i a b. by apply stepwise_lookup with (n := 3).
Qed.

(** *** The final stripping of the batch driver *)

Section Stripped.
Context {U : Unicode}.

Lemma strip_stripped s : stripped (strip s).
Proof.
  unfold stripped. apply strip_id; [apply strip_starts_solid|apply strip_ends_solid].
Qed.

Lemma clean_text_stripped s : stripped (clean_text s).
Proof.
  destruct (clean_text_solid s). unfold stripped. by apply strip_id.
Qed.

Lemma centered_title_stripped page_width blocks text :
  HeuristicStrategy.centered_title page_width blocks = Some text →
  stripped text.
Proof.
  induction blocks as [|b blocks IH]; [done|]. simpl.
  match goal with |- context [if ?c then _ else _] => destruct c end; [|done].
  intros [= <-]. apply clean_text_stripped.
Qed.

Lemma keyword_title_stripped blocks text :
  HeuristicStrategy.keyword_title blocks = Some text → stripped text.
Proof.
  induction blocks as [|b blocks IH]; [done|]. simpl.
  destruct (Re.search title_keyword (block_text b)); [|done].
  intros [= <-]. apply clean_text_stripped.
Qed.

Lemma extract_title_stripped doc :
  stripped (HeuristicStrategy._extract_title doc).
Proof.
  unfold HeuristicStrategy._extract_title.
  destruct (Document.pages doc) as [|page pages]; [done|].
  set (blocks := List.filter _ (Page.blocks page)).
  assert (stripped
            match HeuristicStrategy.centered_title (Page.rect_width page)
                    blocks with
            | Some text => text
            | None => default [] (HeuristicStrategy.keyword_title blocks)
            end) as Hfallbacks.
  { destruct (HeuristicStrategy.centered_title _ blocks) as [text|] eqn:Hc.
    - by apply centered_title_stripped in Hc.
    - destruct (HeuristicStrategy.keyword_title blocks) as [text|] eqn:Hk;
        [by apply keyword_title_stripped in Hk|done]. }
  destruct blocks as [|b0 bs] eqn:Hblocks; [done|].
  destruct (List.filter _ (flat_map block_spans (b0 :: bs))) as [|s spans];
    [done|].
  match goal with |- context [match ?l with [] => _ | _ :: _ => _ end] =>
    destruct l end; [done|].
  apply clean_text_stripped.
Qed.

Lemma heading_text_stripped block_text :
  stripped block_text →
  stripped (VisualLayoutStrategy.heading_text block_text).
Proof.
  intros Hs. unfold VisualLayoutStrategy.heading_text.
  destruct (Re.search VisualLayoutStrategy.call_to_action block_text);
    [apply strip_stripped|done].
Qed.

Lemma visual_scan_block_text body_size page_width page_num blocks i b h :
  VisualLayoutStrategy.scan_block body_size page_width page_num blocks i b
    = Ok (Some h) →
  stripped (Heading.text h).
Proof.
  unfold VisualLayoutStrategy.scan_block.
  destruct (negb (Block.type b =? 0) || negb (nonempty (Block.lines b)));
    [done|].
  destruct (negb (nonempty (block_text b))
            || (Z.of_nat (length (block_text b)) <? 4)); [done|].
  destruct (first_span_of b); [|done]. cbn [mbind result_bind bind].
  match goal with |- context [if ?c then _ else _] => destruct c end; [|done].
  intros [= <-]. simpl. apply heading_text_stripped, clean_text_stripped.
Qed.

Lemma visual_scan_from_texts body_size page_width page_num blocks rest :
  ∀ i hs,
  VisualLayoutStrategy.scan_from body_size page_width page_num blocks i rest
    = Ok hs →
  Forall (λ h, stripped (Heading.text h)) hs.
Proof.
  induction rest as [|b rest IH]; intros i hs; [by intros [= <-]|].
  cbn [VisualLayoutStrategy.scan_from].
  destruct (VisualLayoutStrategy.scan_block body_size page_width page_num
              blocks i b) as [o|] eqn:Hb; [|done].
  cbn [mbind result_bind bind].
  destruct (VisualLayoutStrategy.scan_from body_size page_width page_num
              blocks (S i) rest) as [hs'|] eqn:Hrest; [|done].
  cbn [mbind result_bind bind]. intros [= <-]. apply Forall_app.
  split; [|by eapply IH].
  destruct o as [h|]; [|constructor]. repeat constructor.
  by eapply visual_scan_block_text.
Qed.

Lemma visual_scan_pages_texts body_size pages : ∀ page_num hs,
  VisualLayoutStrategy.scan_pages body_size page_num pages = Ok hs →
  Forall (λ h, stripped (Heading.text h)) hs.
Proof.
  induction pages as [|page pages IH]; intros page_num hs; [by intros [= <-]|].
  cbn [VisualLayoutStrategy.scan_pages].
  destruct (VisualLayoutStrategy.scan_from _ _ _ _ _ _) as [here|] eqn:Hhere;
    [|done].
  cbn [mbind result_bind bind].
  destruct (VisualLayoutStrategy.scan_pages _ _ pages) as [rest|] eqn:Hrest;
    [|done].
  cbn [mbind result_bind bind]. intros [= <-]. apply Forall_app.
  split; [by eapply visual_scan_from_texts|by eapply IH].
Qed.

Lemma structure_headings_texts hs outline :
  Forall (λ h, stripped (Heading.text h)) hs →
  BaseStrategy._structure_headings hs = Ok outline →
  Forall (λ item, stripped (OutlineItem.text item)) outline.
Proof.
  intros Hall Hok. apply Forall_forall. intros item Hitem.
  destruct (structure_headings_origin _ _ _ Hok Hitem) as (h & Hh & -> & _).
  rewrite Forall_forall in Hall. by apply Hall.
Qed.

Lemma post_process_loop_texts rest : ∀ last final,
  BaseStrategy.post_process_loop last rest = Ok final →
  map OutlineItem.text final = map OutlineItem.text rest.
Proof.
  induction rest as [|cur rest IH]; intros last final; [by intros [= <-]|].
  cbn [BaseStrategy.post_process_loop].
  destruct (BaseStrategy.level_num last) as [n|]; [|done].
  destruct (BaseStrategy.level_num cur) as [k|]; [|done].
  cbn [mbind result_bind bind].
  match goal with |- context [BaseStrategy.post_process_loop ?c rest] =>
    destruct (BaseStrategy.post_process_loop c rest) as [tl|] eqn:Htl;
    [|done]; cbn [mbind result_bind bind]; intros [= <-];
    simpl; rewrite (IH _ _ Htl) end.
  by destruct (n + 1 <? k).
Qed.

Lemma post_process_outline_texts outline final :
  BaseStrategy._post_process_outline outline = Ok final →
  map OutlineItem.text final = map OutlineItem.text outline.
Proof.
  destruct outline as [|first rest]; [by intros [= <-]|]. simpl.
  destruct (BaseStrategy.post_process_loop first rest) as [tl|] eqn:Htl; [|done].
  cbn [mbind result_bind bind]. intros [= <-]. simpl.
  by rewrite (post_process_loop_texts _ _ _ Htl).
Qed.

Lemma sub_heading_items_texts level page subs : ∀ items,
  TOCStrategy.sub_heading_items level page subs = Ok items →
  Forall (λ item, stripped (OutlineItem.text item)) items.
Proof.
  induction subs as [|[sub|] subs IH]; intros items; simpl.
  - by intros [= <-].
  - destruct (TOCStrategy.sub_heading_items level page subs) as [rest|];
      [|done].
    cbn [mbind result_bind bind].
    destruct (nonempty (strip sub)); intros [= <-]; [|by apply IH].
    constructor; [apply strip_stripped|by apply IH].
  - done.
Qed.

Lemma toc_items_texts toc : ∀ items,
  TOCStrategy.toc_items toc = Ok items →
  Forall (λ item, stripped (OutlineItem.text item)) items.
Proof.
  induction toc as [|[[level title] page] toc IH]; intros items; simpl.
  { by intros [= <-]. }
  match goal with |- context [mbind _ ?e] =>
    destruct e as [here|] eqn:Hhere end; [|done].
  cbn [mbind result_bind bind].
  destruct (TOCStrategy.toc_items toc) as [rest|]; [|done].
  cbn [mbind result_bind bind]. intros [= <-]. apply Forall_app.
  split; [|by apply IH].
  destruct (level <=? 3); [|by injection Hhere as <-].
  match type of Hhere with (if ?c then _ else _) = _ => destruct c end;
    [by eapply sub_heading_items_texts|by injection Hhere as <-].
Qed.

Lemma strip_result_fixed r :
  stripped (Extraction.title r) →
  Forall (λ item, stripped (OutlineItem.text item)) (Extraction.outline r) →
  Main.strip_result r = r.
Proof.
  destruct r as [title outline]. unfold Main.strip_result. simpl.
  intros Ht Ho. f_equal.
  - by destruct title.
  - induction Ho as [|item outline Hi _ IH]; [done|]. simpl. rewrite IH.
    f_equal. destruct item as [l t p]. unfold OutlineItem.set_text. simpl.
    simpl in Hi. by rewrite Hi.
Qed.

Lemma Forall_texts (outline outline' : list OutlineItem.t) :
  map OutlineItem.text outline' = map OutlineItem.text outline →
  Forall (λ item, stripped (OutlineItem.text item)) outline →
  Forall (λ item, stripped (OutlineItem.text item)) outline'.
Proof.
  intros Heq Hall. rewrite Forall_forall in Hall.
  apply Forall_forall. intros item Hitem.
  apply (list_elem_of_fmap_2 OutlineItem.text) in Hitem.
  change (OutlineItem.text item ∈ map OutlineItem.text outline') in Hitem.
  rewrite Heq in Hitem. apply list_elem_of_fmap in Hitem as (x & -> & Hx).
  by apply Hall.
Qed.
End Stripped.

(** X15. The result of every strategy is already stripped: its title
    and the text of every item of its outline have no white space at
    either end, so the stripping that the batch driver applies before
    writing changes nothing. *)
Theorem extract_result_stripped {U : Unicode}
    (strategy : Strategy.t) (r : Extraction.t) :
  PDFOutlineExtractor.extract strategy = Ok r →
  stripped (Extraction.title r) ∧
  Forall (λ item, stripped (OutlineItem.text item)) (Extraction.outline r) ∧
  Main.strip_result r = r.
Proof.
  intros Hok.
  assert (stripped (Extraction.title r) ∧
          Forall (λ item, stripped (OutlineItem.text item))
            (Extraction.outline r)) as [Ht Ho].
  { destruct strategy as [doc|doc fs bs|doc fs bs|doc fs bs]; simpl in Hok.
    - unfold TOCStrategy.extract, TOCStrategy._process_toc in Hok.
      destruct (TOCStrategy.toc_items (Document.get_toc doc)) as [items|] eqn:Hi;
        [|done].
      cbn [mbind result_bind bind] in Hok.
      destruct (BaseStrategy._post_process_outline items) as [final|] eqn:Hf;
        [|done].
      injection Hok as <-. simpl. split; [apply (extract_title_stripped doc)|].
      apply (Forall_texts items); [by apply post_process_outline_texts|].
      by eapply toc_items_texts.
    - unfold HeuristicStrategy.extract in Hok.
      destruct (HeuristicStrategy._find_headings doc bs) as [hs|] eqn:Hfind;
        [|done].
      cbn [mbind result_bind bind] in Hok.
      destruct (BaseStrategy._structure_headings hs) as [o|] eqn:Hs; [|done].
      injection Hok as <-. simpl. split; [apply extract_title_stripped|].
      apply (structure_headings_texts hs); [|done].
      apply Forall_forall. intros h Hh.
      destruct (find_headings_members doc bs hs h Hfind Hh)
        as (i & page & b & _ & _ & _ & -> & _).
      apply clean_text_stripped.
    - unfold FormStrategy.extract in Hok. injection Hok as <-. simpl.
      split; [apply extract_title_stripped|constructor].
    - unfold VisualLayoutStrategy.extract in Hok.
      destruct (VisualLayoutStrategy.scan_pages bs 0 (Document.pages doc))
        as [hs|] eqn:Hscan; [|done].
      cbn [mbind result_bind bind] in Hok.
      destruct (BaseStrategy._structure_headings hs) as [o|] eqn:Hs; [|done].
      injection Hok as <-. simpl. split; [done|].
      apply (structure_headings_texts hs); [|done].
      by eapply visual_scan_pages_texts. }
  split; [done|]. split; [done|]. by apply strip_result_fixed.
Qed.

(** *** The title *)

Section Rounding.
Lemma Qltb_lt a b : Qltb a b = true ↔ (a < b)%Q.
Proof.
  unfold Qltb. rewrite negb_true_iff. split.
  - intros H. apply Qnot_le_lt. intros Hle%Qle_bool_iff. congruence.
  - intros Hlt. destruct (Qle_bool b a) eqn:E; [|done].
    apply Qle_bool_iff in E. by apply Qlt_not_le in Hlt.
Qed.

Lemma Qltb_ge a b : Qltb a b = false ↔ (b <= a)%Q.
Proof.
  unfold Qltb. rewrite negb_false_iff. apply Qle_bool_iff.
Qed.

Lemma round_bounds x : Qfloor x ≤ round x ≤ Qfloor x + 1.
Proof.
  unfold round.
  repeat match goal with |- context [if ?c then _ else _] => destruct c end;
    lia.
Qed.

Lemma round_mono a b : (a <= b)%Q → round a ≤ round b.
Proof.
  intros Hab. pose proof (Qfloor_resp_le _ _ Hab) as Hfloor.
  destruct (Z.eq_dec (Qfloor a) (Qfloor b)) as [Heq|Hne].
  - unfold round. rewrite Heq. set (f := Qfloor b).
    destruct (Qltb (a - inject_Z f) (1 # 2)) eqn:Ea.
    { repeat match goal with |- context [if ?c then _ else _] =>
        destruct c end; lia. }
    apply Qltb_ge in Ea.
    destruct (Qltb (b - inject_Z f) (1 # 2)) eqn:Eb.
    { apply Qltb_lt in Eb. lra. }
    destruct (Qltb (1 # 2) (a - inject_Z f)) eqn:Ea'.
    { apply Qltb_lt in Ea'.
      assert (Qltb (1 # 2) (b - inject_Z f) = true) as ->
        by (apply Qltb_lt; lra).
      lia. }
    destruct (Qltb (1 # 2) (b - inject_Z f)); destruct (Z.even f); lia.
  - pose proof (round_bounds a). pose proof (round_bounds b). lia.
Qed.

Lemma round_nine_tenths x : (0 <= x)%Q → round (x * (9 # 10)) ≤ round x.
Proof. intros Hx. apply round_mono. lra. Qed.

Lemma Qmax_list_member x xs : Qmax_list x xs ∈ x :: xs.
Proof.
  unfold Qmax_list. revert x. induction xs as [|y xs IH]; intros x; simpl.
  { apply list_elem_of_here. }
  destruct (Qltb x y).
  - apply elem_of_cons. right. apply IH.
  - specialize (IH x). apply elem_of_cons in IH as [->|IH].
    + apply list_elem_of_here.
    + by do 2 (apply elem_of_cons; right).
Qed.
End Rounding.

(** X16. When the blocks of the top 60% of the first page hold a span
    that is not blank and no such span has a negative size, the title is
    the cleaned text of the spans whose rounded size is the rounded
    largest size, joined by spaces: neither fallback is consulted. *)
Theorem extract_title_largest_spans {U : Unicode}
    (doc : Document.t) (page : Page.t) (pages : list Page.t)
    (s : Span.t) (spans : list Span.t) :
  Document.pages doc = page :: pages →
  List.filter (λ s, nonempty (strip (Span.text s)))
    (flat_map block_spans
       (List.filter
          (λ b, (Block.type b =? 0) &&
                Qltb (y1 (Block.bbox b)) (Page.rect_height page * (6 # 10)))
          (Page.blocks page)))
  = s :: spans →
  Forall (λ s, (0 <= Span.size s)%Q) (s :: spans) →
  let top_size := Qmax_list (Span.size s) (map Span.size spans) in
  HeuristicStrategy._extract_title doc
  = clean_text
      (join (lit " ")
         (map Span.text
            (List.filter (λ s, round (Span.size s) =? round top_size)
               (s :: spans)))).
Proof.
  intros Hpages Hspans Hsizes top_size.
  unfold HeuristicStrategy._extract_title. rewrite Hpages.
  destruct (List.filter _ (Page.blocks page)) as [|b0 bs] eqn:Hblocks.
  { by simpl in Hspans. }
  rewrite Hspans. fold top_size.
  assert ((0 <= top_size)%Q) as Htop.
  { pose proof (Qmax_list_member (Span.size s) (map Span.size spans)) as Hin.
    fold top_size in Hin.
    change (top_size ∈ map Span.size (s :: spans)) in Hin.
    apply list_elem_of_fmap in Hin as (x & -> & Hx).
    rewrite Forall_forall in Hsizes. by apply Hsizes. }
  pose proof (round_nine_tenths top_size Htop) as Hround.
  set (candidates := List.filter _ (s :: spans)).
  assert (List.filter (λ s, round (Span.size s) =? round top_size) candidates
          = List.filter (λ s, round (Span.size s) =? round top_size)
              (s :: spans)) as Hsame.
  { unfold candidates. generalize (s :: spans). intros l.
    induction l as [|x l IH]; [done|]. cbn [List.filter].
    destruct (round (Span.size x) =? round top_size) eqn:E.
    - apply Z.eqb_eq in E.
      assert ((round (top_size * (9 # 10))%Q <=? round (Span.size x)) = true)
        as -> by (apply Z.leb_le; lia).
      cbn [List.filter]. rewrite E, Z.eqb_refl. by rewrite IH.
    - destruct (round (top_size * (9 # 10))%Q <=? round (Span.size x));
        [|done].
      cbn [List.filter]. by rewrite E. }
  assert (candidates ≠ []) as Hne.
  { pose proof (Qmax_list_member (Span.size s) (map Span.size spans)) as Hin.
    fold top_size in Hin.
    change (top_size ∈ map Span.size (s :: spans)) in Hin.
    apply list_elem_of_fmap in Hin as (x & Hx & Hin).
    intros Hnil.
    assert (x ∈ candidates) as Hxc.
    { unfold candidates. apply list_elem_of_In, filter_In.
      split; [by apply list_elem_of_In|]. apply Z.leb_le. rewrite <- Hx. lia. }
    rewrite Hnil in Hxc. by apply elem_of_nil in Hxc. }
  destruct candidates as [|c cs] eqn:Hc; [done|].
  by rewrite Hsame.
Qed.

(** *** The split of an entry of the table of contents *)

Section Captures.
Context {U : Unicode}.

Lemma captured_cons n t g :
  captured g ∨ n = 1%nat → captured ((n, t) :: g).
Proof.
  unfold captured. simpl. intros [Hg| ->]; [|done].
  by destruct (n =? 1)%nat.
Qed.

(** Every success of the matcher is a success of its continuation. *)
Lemma rep_loop_capturing step k fuel :
  (∀ k', capturing k' → ∀ p s g st, step p s g k' = Some st → captured (snd st)) →
  capturing k →
  ∀ need p s g st,
    Re.rep_loop step k fuel need p s g = Some st → captured (snd st).
Proof.
  intros Hstep Hk. induction fuel as [|fuel IH]; intros need p s g st; [done|].
  simpl. destruct need as [|need].
  - destruct (step p s g _) as [st'|] eqn:E.
    + intros [= <-]. eapply Hstep; [|exact E].
      intros p' s' g' st''. destruct (length s' <? length s)%nat; [|done].
      apply IH.
    + by apply Hk.
  - apply Hstep. intros p' s' g' st'. apply IH.
Qed.

Lemma m_capturing r : ∀ k,
  capturing k → ∀ p s g st, Re.m r p s g k = Some st → captured (snd st).
Proof.
  induction r as [|c|r1 IH1 r2 IH2|r1 IH1 r2 IH2|min r IH|n r IH| | |r IH];
    intros k Hk p s g st; cbn [Re.m].
  - apply Hk.
  - destruct s as [|x s]; [done|]. destruct (Re.cls_match c x); [|done].
    apply Hk.
  - apply IH1. intros p' s' g' st'. by apply IH2.
  - destruct (Re.m r1 p s g k) eqn:E; [intros [= <-]; by eapply IH1|].
    by apply IH2.
  - apply rep_loop_capturing; [|done]. intros k' Hk'. by apply IH.
  - apply IH. intros p' s' g' st'. apply Hk.
  - destruct p; [done|]. apply Hk.
  - destruct (xorb _ _); [|done]. apply Hk.
  - destruct (Re.m r p s g _) as [[[? ?] g']|]; [|done]. apply Hk.
Qed.

(** A continuation that keeps group 1 gives a matcher that keeps it. *)
Lemma rep_loop_keeping step k fuel :
  (∀ k', keeping k' → ∀ p s g st,
     captured g → step p s g k' = Some st → captured (snd st)) →
  keeping k →
  ∀ need p s g st,
    captured g →
    Re.rep_loop step k fuel need p s g = Some st → captured (snd st).
Proof.
  intros Hstep Hk. induction fuel as [|fuel IH]; intros need p s g st Hg;
    [done|].
  simpl. destruct need as [|need].
  - destruct (step p s g _) as [st'|] eqn:E.
    + intros [= <-]. eapply Hstep; [|exact Hg|exact E].
      intros p' s' g' st'' Hg'. destruct (length s' <? length s)%nat; [|done].
      by apply IH.
    + by apply Hk.
  - apply Hstep; [|done]. intros p' s' g' st' Hg'. by apply IH.
Qed.

Lemma m_keeping r : ∀ k,
  keeping k →
  ∀ p s g st, captured g → Re.m r p s g k = Some st → captured (snd st).
Proof.
  induction r as [|c|r1 IH1 r2 IH2|r1 IH1 r2 IH2|min r IH|n r IH| | |r IH];
    intros k Hk p s g st Hg; cbn [Re.m].
  - by apply Hk.
  - destruct s as [|x s]; [done|]. destruct (Re.cls_match c x); [|done].
    by apply Hk.
  - apply IH1; [|done]. intros p' s' g' st' Hg'. by apply IH2.
  - destruct (Re.m r1 p s g k) eqn:E; [intros [= <-]; by eapply IH1|].
    by apply IH2.
  - apply rep_loop_keeping; [|done..]. intros k' Hk'. by apply IH.
  - apply IH; [|done]. intros p' s' g' st' Hg'. apply Hk.
    apply captured_cons. by left.
  - destruct p; [done|]. by apply Hk.
  - destruct (xorb _ _); [|done]. by apply Hk.
  - destruct (Re.m r p s g _) as [[[? ?] g']|] eqn:E; [|done].
    apply Hk.
    assert (keeping (λ p' s' g'', Some (p', s', g''))) as Hk0
      by (by intros p' s' g'' st' Hg'' [= <-]).
    apply (IH _ Hk0 p s g (o, s0, g') Hg E).
Qed.

(** A compulsory round of a repeated group 1 captures it. *)
Lemma m_repeated_group r k p s g st :
  keeping k →
  Re.m (Re.Rep 1 (Re.Group 1 r)) p s g k = Some st → captured (snd st).
Proof.
  intros Hk. cbn [Re.m Re.rep_loop]. apply m_capturing.
  intros p' s' g' st'. apply rep_loop_keeping; [|done|].
  - intros k' Hk' p'' s'' g'' st'' Hg''. by apply (m_keeping (Re.Group 1 r)).
  - apply captured_cons. by right.
Qed.

Lemma m_seq_second r1 r2 :
  (∀ k, keeping k → ∀ p s g st,
     Re.m r2 p s g k = Some st → captured (snd st)) →
  ∀ k, keeping k → ∀ p s g st,
    Re.m (Re.Seq r1 r2) p s g k = Some st → captured (snd st).
Proof.
  intros H2 k Hk p s g st. cbn [Re.m]. apply m_capturing.
  intros p' s' g' st'. by apply H2.
Qed.

Lemma m_seq_first r1 r2 :
  (∀ k, keeping k → ∀ p s g st,
     Re.m r1 p s g k = Some st → captured (snd st)) →
  ∀ k, keeping k → ∀ p s g st,
    Re.m (Re.Seq r1 r2) p s g k = Some st → captured (snd st).
Proof.
  intros H1 k Hk p s g st. cbn [Re.m]. apply H1.
  intros p' s' g' st' Hg'. by apply m_keeping.
Qed.

Lemma m_ahead r :
  (∀ k, keeping k → ∀ p s g st,
     Re.m r p s g k = Some st → captured (snd st)) →
  ∀ k, keeping k → ∀ p s g st,
    Re.m (Re.Ahead r) p s g k = Some st → captured (snd st).
Proof.
  intros Hr k Hk p s g st. cbn [Re.m].
  destruct (Re.m r p s g _) as [[[o s1] g']|] eqn:E; [|done].
  apply Hk.
  assert (keeping (λ p' s' g'', Some (p', s', g''))) as Hk0
    by (by intros p' s' g'' st' Hg'' [= <-]).
  apply (Hr _ Hk0 p s g (o, s1, g') E).
Qed.

Lemma accept_keeping adv s0 : keeping (Re.accept adv s0).
Proof.
  intros p s g st Hg. unfold Re.accept.
  destruct (adv && _); [done|]. by intros [= <-].
Qed.

Lemma m_nested_numbering adv s0 p s st :
  Re.m TOCStrategy.nested_numbering p s [] (Re.accept adv s0) = Some st →
  captured (snd st).
Proof.
  unfold TOCStrategy.nested_numbering. cbn [Re.sequence].
  apply m_ahead; [|apply accept_keeping].
  apply m_seq_second. apply m_seq_first.
  intros k Hk p' s' g' st'. by apply m_repeated_group.
Qed.

Lemma find_nested_numbering s : ∀ adv prev skip mt,
  Re.find TOCStrategy.nested_numbering adv prev skip s = Some mt →
  captured (Re.groups mt).
Proof.
  induction s as [|c s IH]; intros adv prev skip mt; cbn [Re.find].
  - destruct (Re.m TOCStrategy.nested_numbering prev [] [] (Re.accept adv []))
      as [[[p s'] g]|] eqn:E; [|done].
    intros [= <-]. by apply m_nested_numbering in E.
  - destruct (Re.m TOCStrategy.nested_numbering prev (c :: s) []
                (Re.accept adv (c :: s))) as [[[p s'] g]|] eqn:E.
    + intros [= <-]. by apply m_nested_numbering in E.
    + apply IH.
Qed.

Lemma split_loop_nested_numbering fuel : ∀ adv prev s,
  Forall is_Some
    (Re.split_loop fuel TOCStrategy.nested_numbering 1 adv prev s).
Proof.
  induction fuel as [|fuel IH]; intros adv prev s; simpl.
  { by repeat constructor. }
  destruct (Re.find TOCStrategy.nested_numbering adv prev [] s) as [mt|] eqn:E.
  - apply find_nested_numbering in E as Hg.
    constructor; [done|]. constructor; [|apply IH].
    unfold captured in Hg. by destruct (Re.group (Re.groups mt) 1).
  - by repeat constructor.
Qed.

Lemma sub_heading_items_total level page subs :
  Forall is_Some subs →
  ∃ items, TOCStrategy.sub_heading_items level page subs = Ok items.
Proof.
  induction 1 as [|sub subs [t ->] _ [items IH]]; [by eexists|].
  simpl. rewrite IH. cbn [mbind result_bind bind].
  destruct (nonempty (strip t)); by eexists.
Qed.

Lemma entry_items_total entry :
  ∃ items, TOCStrategy.entry_items entry = Ok items.
Proof.
  destruct entry as [[level title] page]. unfold TOCStrategy.entry_items.
  destruct (level <=? 3); [|by eexists]. cbn zeta.
  match goal with |- context [if ?c then _ else _] => destruct c end;
    [|by eexists].
  apply sub_heading_items_total, split_loop_nested_numbering.
Qed.

Lemma toc_items_total toc :
  ∃ items, TOCStrategy.toc_items toc = Ok items.
Proof.
  induction toc as [|entry toc [rest IH]]; [by eexists|].
  cbn [TOCStrategy.toc_items].
  destruct (entry_items_total entry) as [here ->].
  cbn [mbind result_bind bind]. rewrite IH. by eexists.
Qed.
End Captures.

(** X17. The split of an entry never yields a missing piece, so the
    items of a table of contents are always produced; and with levels
    that start at 1 the TOC strategy returns a result for every
    document. *)
Theorem toc_extract_total {U : Unicode} (doc : Document.t) :
  (∃ items, TOCStrategy.toc_items (Document.get_toc doc) = Ok items) ∧
  (Forall (λ entry, 1 ≤ fst (fst entry)) (Document.get_toc doc) →
   ∃ r, TOCStrategy.extract doc = Ok r).
Proof.
  destruct (toc_items_total (Document.get_toc doc)) as [items Hitems].
  split; [by exists items|]. intros Hall.
  unfold TOCStrategy.extract, TOCStrategy._process_toc. rewrite Hitems.
  cbn [mbind result_bind bind].
  destruct (post_process_outline_spec items) as (final & -> & _).
  { by apply toc_items_leveled with (toc := Document.get_toc doc). }
  by eexists.
Qed.

(** X18. With levels of the table of contents that start at 1, an
    extraction can fail in one way only: the strategy is the heuristic or
    the visual layout strategy and the exception is IndexError. The TOC
    strategy and the form strategy always return a result. *)
Theorem extract_raises_only_index_error {U : Unicode}
    (strategy : Strategy.t) (e : exn) :
  Forall (λ entry, 1 ≤ fst (fst entry))
    (Document.get_toc (strategy_doc strategy)) →
  PDFOutlineExtractor.extract strategy = Raise e →
  e = IndexError ∧
  (kind strategy = Kind.Heuristic ∨ kind strategy = Kind.VisualLayout).
Proof.
  intros Htoc Hraise.
  destruct strategy as [doc|doc fs bs|doc fs bs|doc fs bs]; simpl in *.
  - destruct (toc_items_total (Document.get_toc doc)) as [items Hitems].
    unfold TOCStrategy.extract, TOCStrategy._process_toc in Hraise.
    rewrite Hitems in Hraise. cbn [mbind result_bind bind] in Hraise.
    destruct (post_process_outline_spec items) as (final & Hf & _).
    { by apply toc_items_leveled with (toc := Document.get_toc doc). }
    by rewrite Hf in Hraise.
  - apply heuristic_extract_find_headings in Hraise.
    apply scan_pages_raise in Hraise as [-> _]. split; [done|by left].
  - done.
  - apply visual_extract_find_headings in Hraise.
    destruct (visual_scan_pages_spec bs (Document.pages doc) 0)
      as [(hs & Hok & _)|[Hr _]].
    + by rewrite Hok in Hraise.
    + rewrite Hr in Hraise. injection Hraise as <-. split; [done|by right].
Qed.

(** *** The further properties on sample data *)

(** X2, witness: the outline H1, H3, H3. *)
Lemma post_process_outline_keeps_witness :
  ∃ final,
    BaseStrategy._post_process_outline (U:=Latin.unicode) jumping_outline
      = Ok final ∧
    length final = length jumping_outline ∧
    Forall2 kept jumping_outline final ∧
    head final = head jumping_outline.
Proof.
  apply (post_process_outline_keeps (U:=Latin.unicode) jumping_outline).
  repeat constructor; [exists 1|exists 3|exists 3]; by split; [lia|].
Defined.

(** X3, witness: the same outline. *)
Lemma post_process_outline_idempotent_witness :
  ∃ final,
    BaseStrategy._post_process_outline (U:=Latin.unicode) jumping_outline
      = Ok final ∧
    BaseStrategy._post_process_outline (U:=Latin.unicode) final = Ok final ∧
    (stepwise 3 jumping_outline → final = jumping_outline).
Proof.
  apply (post_process_outline_idempotent (U:=Latin.unicode) jumping_outline).
  repeat constructor; [exists 1|exists 3|exists 3]; by split; [lia|].
Defined.

(** X10, witness: the paragraph of scenario B at body size 11. *)
Lemma heuristic_plain_block_rejected_witness :
  HeuristicStrategy.scan_block (U:=Latin.unicode) 11 800 0 (body_block 11)
    = Ok None.
Proof.
  apply (heuristic_plain_block_rejected (U:=Latin.unicode) 11 800 0
           (body_block 11)
           (span_of "A paragraph of body text, long enough to set the body size."
              11 "Arial"));
    vm_compute; (reflexivity || discriminate).
Defined.

(** X11, witness: the document of scenario B has one candidate. *)
Lemma find_headings_candidates_witness :
  Forall (λ h,
    0 ≤ Heading.page h < Document.page_count heading_document ∧
    ∃ page b,
      Document.pages heading_document !! Z.to_nat (Heading.page h)
        = Some page ∧
      b ∈ Page.blocks page ∧
      Heading.text h = block_text (U:=Latin.unicode) b ∧
      Heading.text h ≠ [] ∧
      Heading.bbox h = Block.bbox b ∧
      outside_margins page (Heading.bbox h)) [heading_candidate].
Proof.
  apply (find_headings_candidates (U:=Latin.unicode) heading_document 11).
  vm_compute. reflexivity.
Defined.

(** X13, witness: the outline of the document of scenario B. *)
Lemma outline_pages_in_document_witness :
  Forall (λ item,
    1 ≤ OutlineItem.page item ≤ Document.page_count heading_document)
    (Extraction.outline heading_result).
Proof.
  apply (outline_pages_in_document (U:=Latin.unicode)
           (Strategy.Heuristic heading_document [] 11) heading_result).
  - discriminate.
  - vm_compute. reflexivity.
Defined.

(** X14, witness: the same extraction. *)
Lemma extract_outline_stepwise_witness :
  stepwise 3 (Extraction.outline heading_result).
Proof.
  apply (extract_outline_stepwise (U:=Latin.unicode)
           (Strategy.Heuristic heading_document [] 11) heading_result).
  - constructor.
  - vm_compute. reflexivity.
Defined.

(** X15, witness: the same extraction. *)
Lemma extract_result_stripped_witness :
  Main.strip_result (U:=Latin.unicode) heading_result = heading_result.
Proof.
  apply (extract_result_stripped (U:=Latin.unicode)
           (Strategy.Heuristic heading_document [] 11) heading_result).
  vm_compute. reflexivity.
Defined.

(** X16, witness: the title of the document of scenario B is the text of
    its largest span. *)
Lemma extract_title_largest_spans_witness :
  HeuristicStrategy._extract_title (U:=Latin.unicode) heading_document
  = lit "3.2 Methodology".
Proof.
  rewrite (extract_title_largest_spans (U:=Latin.unicode) heading_document
             (page_of [heading_block; body_block 11] 900) [] heading_span
             [span_of
                "A paragraph of body text, long enough to set the body size."
                11 "Arial"]).
  - vm_compute. reflexivity.
  - reflexivity.
  - vm_compute. reflexivity.
  - repeat constructor; vm_compute; discriminate.
Defined.

(** X18, witness: the heuristic strategy on the document whose block has
    a first line without a span. *)
Lemma extract_raises_only_index_error_witness :
  IndexError = IndexError ∧
  (kind (Strategy.Heuristic hollow_body_document [] 10) = Kind.Heuristic ∨
   kind (Strategy.Heuristic hollow_body_document [] 10) = Kind.VisualLayout).
Proof.
  apply (extract_raises_only_index_error (U:=Latin.unicode)
           (Strategy.Heuristic hollow_body_document [] 10) IndexError).
  - constructor.
  - vm_compute. reflexivity.
Defined.
